(** * Actor runtime of go-experiences (generator/actor), shallow embedding

    The Go package [actor] is embedded as follows.
    - [Options], [configure] and [New] are pure functions; [New] returns the
      caller's options object as [configure] leaves it (Go passes it by
      pointer).
    - A running actor is a state [St] holding every goroutine of the actor:
      its workers ([work]), the goroutines spawned by [Queue] to send into the
      inbox, the caller of [Stop] and the drain goroutine spawned by [Stop].
      [exec a self s act] performs one atomic step of one goroutine, chosen by
      [act]; [run] performs a schedule of steps.  Every interleaving of the
      goroutines is a schedule.
    - Go channels: the inbox is a buffered channel of capacity
      [inbox_cap a]; a send on a closed channel panics; a receive from a
      closed, empty channel yields the zero value [vnil] at once; closing a
      closed channel panics.  [sync.WaitGroup] follows its implementation:
      [Add] is an atomic add followed by checks (a negative counter panics;
      an [Add] that raises the counter from 0 while [Stop] waits panics) and,
      when it brings the counter to 0 while [Stop] waits, by a second step
      that checks the wait group again and releases [Stop]; a released
      [Wait] panics if the wait group is no longer zero.  A panic ends the
      program: no step follows.
    - Fields marked "ghost" record history only (what was enqueued, what was
      processed) and are never read by a step. *)

From Stdlib Require Import ZArith Lia.
From stdpp Require Import base list gmap strings.

Open Scope Z_scope.

(** Heap addresses of [*Actor] values and of channels. *)
Definition loc := nat.

(** ** Options and configuration (actor.go) *)

Record Options := mkOptions {
  Name : string;
  Worker : Z;
  Output : option loc;
  FailChannel : option loc
}.

(** [func (opt *Options) configure()] *)
Definition configure (opt : Options) : Options :=
  if Worker opt <=? 0
  then mkOptions (Name opt) 1 (Output opt) (FailChannel opt)
  else opt.

(** [func (actor *Actor) start(idx, n int)]: the worker numbers passed to
    [go actor.work(idx + 1)], in spawn order.  The Go recursion stops when
    [idx == n]; the fuel [n - idx] is exactly the number of calls it makes
    when [idx <= n] (always the case: [New] calls [start(0, opt.Worker)]
    after [configure]). *)
Fixpoint start_fuel (fuel : nat) (idx n : Z) : list Z :=
  match fuel with
  | O => []
  | S fuel' => if idx =? n then [] else (idx + 1) :: start_fuel fuel' (idx + 1) n
  end.

Definition start (idx n : Z) : list Z := start_fuel (Z.to_nat (n - idx)) idx n.

Section ActorMachine.

(** Message values ([interface{}]), errors, and exception handlers. *)
Context {V Err Exc : Type}.
(** The zero value of [interface{}] ([nil]). *)
Variable vnil : V.

(** [type Processor func(worker int, actor *Actor, message interface{})
    (interface{}, error)]; [None] is a [nil] error. *)
Definition Processor : Type := Z -> loc -> V -> V * option Err.

(** [type Actor struct]: the fields fixed at [New].  The channels [inbox],
    [exit] and the two wait groups live in the state [St]. *)
Record Actor := mkActor {
  name : string;
  inbox_cap : nat;
  outbox : option loc;
  failure : option loc;
  process : Processor;
  exception : option Exc
}.

(** The actor with its [outbox] field set to [o] ([source.outbox = target]
    in [Direct]). *)
Definition set_outbox (x : Actor) (o : option loc) : Actor :=
  mkActor (name x) (inbox_cap x) o (failure x) (process x) (exception x).

(** A worker goroutine running [work(w)]. *)
Inductive WState :=
  | WNew                       (* spawned, [workgroup.Add(1)] not yet run *)
  | WIdle                      (* in the [select] of the [for] loop *)
  | WBusy (m : V) (real : bool) (* received [m]; [real] (ghost): [m] came
                                   from the buffer, not from a closed inbox *)
  | WDoneWake                  (* its [inboxgroup.Done()] brought the counter
                                  to 0 while [Stop] waits on it: in the second
                                  half of [Add], then back to the loop *)
  | WExitWake                  (* returning; its deferred [workgroup.Done()]
                                  brought the counter to 0 while [Stop] waits
                                  on it: in the second half of [Add] *)
  | WExited.

(** The caller of [Stop].  A [sync.WaitGroup] waiter registers itself and
    blocks ([SBlocked...]) until the [Add] that brings the counter to 0
    releases it ([SWoken...]); it then checks that the wait group is still
    zero. *)
Inductive StopPc :=
  | SIdle                       (* [Stop] not called *)
  | SWaitWorkers                (* at [actor.workgroup.Wait()] *)
  | SBlockedWorkers             (* registered as waiter of [workgroup] *)
  | SWokenWorkers               (* released; [workgroup.Wait()] re-checks *)
  | SWaitInbox                  (* at [actor.inboxgroup.Wait()] *)
  | SBlockedInbox               (* registered as waiter of [inboxgroup] *)
  | SWokenInbox                 (* released; [inboxgroup.Wait()] re-checks *)
  | SClosing                    (* at [close(actor.inbox)] *)
  | SReturned (ret : list V).   (* returned [pendings] *)

(** The drain goroutine of [Stop]; [DWaking]: its [inboxgroup.Done()]
    brought the counter to 0 while [Stop] waits on it, and it is in the
    second half of [Add]. *)
Inductive DrainPc := DNotSpawned | DRunning | DWaking | DExited.

(** Observable effects of a worker on other objects. *)
Inductive Event :=
  | EvException (h : Exc) (w : Z) (self : loc) (err : Err)
      (* [actor.exception(w, actor, err)] *)
  | EvRoute (target : loc) (result : V).
      (* [actor.outbox.Queue(result)] *)

Record St := mkSt {
  buf : list V;                   (* contents of [actor.inbox] *)
  closed : bool;                  (* [actor.inbox] closed *)
  exit_closed : bool;             (* [actor.exit] closed *)
  workgroup : Z;                  (* counter of [actor.workgroup]; its waiter
                                     count is 1 exactly when [stopper] is
                                     [SBlockedWorkers] *)
  inboxgroup : Z;                 (* counter of [actor.inboxgroup]; its waiter
                                     count is 1 exactly when [stopper] is
                                     [SBlockedInbox] *)
  workers : list (Z * WState);    (* worker number and its goroutine *)
  senders : list (list V);        (* goroutine of the i-th [Queue] call:
                                     messages it has still to send *)
  stopper : StopPc;
  drainer : DrainPc;
  pendings : list V;              (* [Stop]'s named result *)
  panicked : bool;
  events : list Event;
  calls : list (list V);          (* ghost: arguments of each [Queue] call *)
  late : nat;                     (* ghost: [Queue] calls made after [Stop]
                                     was called *)
  sent : list (nat * V);          (* ghost: insertions into the inbox, with
                                     the [Queue] call they come from *)
  succ : list V;                  (* ghost: buffered messages processed
                                     with a [nil] error *)
  failed : list V;                (* ghost: buffered messages processed
                                     with an error *)
  qwaking : nat                   (* callers of [Queue()] whose
                                     [inboxgroup.Add(0)] met the counter at 0
                                     with [Stop] waiting: in the second half
                                     of [Add] *)
}.

Definition init_state (ws : list Z) : St :=
  mkSt [] false false 0 0 (map (fun w => (w, WNew)) ws) [] SIdle DNotSpawned []
       false [] [] 0 [] [] [] 0.

(** [New]: configure the options in place, build the actor, start
    [opt.Worker] worker goroutines. *)
Definition New (p : Processor) (e : option Exc) (opt : Options)
    : Options * Actor * St :=
  let opt := configure opt in
  let actor := mkActor (Name opt) (Z.to_nat (Worker opt)) (Output opt) None p e in
  (opt, actor, init_state (start 0 (Worker opt))).

(** Field updates of [St]. *)
Definition set_buf s x := mkSt x (closed s) (exit_closed s) (workgroup s) (inboxgroup s) (workers s) (senders s) (stopper s) (drainer s) (pendings s) (panicked s) (events s) (calls s) (late s) (sent s) (succ s) (failed s) (qwaking s).
Definition set_closed s x := mkSt (buf s) x (exit_closed s) (workgroup s) (inboxgroup s) (workers s) (senders s) (stopper s) (drainer s) (pendings s) (panicked s) (events s) (calls s) (late s) (sent s) (succ s) (failed s) (qwaking s).
Definition set_exit_closed s x := mkSt (buf s) (closed s) x (workgroup s) (inboxgroup s) (workers s) (senders s) (stopper s) (drainer s) (pendings s) (panicked s) (events s) (calls s) (late s) (sent s) (succ s) (failed s) (qwaking s).
Definition set_workgroup s x := mkSt (buf s) (closed s) (exit_closed s) x (inboxgroup s) (workers s) (senders s) (stopper s) (drainer s) (pendings s) (panicked s) (events s) (calls s) (late s) (sent s) (succ s) (failed s) (qwaking s).
Definition set_inboxgroup s x := mkSt (buf s) (closed s) (exit_closed s) (workgroup s) x (workers s) (senders s) (stopper s) (drainer s) (pendings s) (panicked s) (events s) (calls s) (late s) (sent s) (succ s) (failed s) (qwaking s).
Definition set_workers s x := mkSt (buf s) (closed s) (exit_closed s) (workgroup s) (inboxgroup s) x (senders s) (stopper s) (drainer s) (pendings s) (panicked s) (events s) (calls s) (late s) (sent s) (succ s) (failed s) (qwaking s).
Definition set_senders s x := mkSt (buf s) (closed s) (exit_closed s) (workgroup s) (inboxgroup s) (workers s) x (stopper s) (drainer s) (pendings s) (panicked s) (events s) (calls s) (late s) (sent s) (succ s) (failed s) (qwaking s).
Definition set_stopper s x := mkSt (buf s) (closed s) (exit_closed s) (workgroup s) (inboxgroup s) (workers s) (senders s) x (drainer s) (pendings s) (panicked s) (events s) (calls s) (late s) (sent s) (succ s) (failed s) (qwaking s).
Definition set_drainer s x := mkSt (buf s) (closed s) (exit_closed s) (workgroup s) (inboxgroup s) (workers s) (senders s) (stopper s) x (pendings s) (panicked s) (events s) (calls s) (late s) (sent s) (succ s) (failed s) (qwaking s).
Definition set_pendings s x := mkSt (buf s) (closed s) (exit_closed s) (workgroup s) (inboxgroup s) (workers s) (senders s) (stopper s) (drainer s) x (panicked s) (events s) (calls s) (late s) (sent s) (succ s) (failed s) (qwaking s).
Definition set_panicked s x := mkSt (buf s) (closed s) (exit_closed s) (workgroup s) (inboxgroup s) (workers s) (senders s) (stopper s) (drainer s) (pendings s) x (events s) (calls s) (late s) (sent s) (succ s) (failed s) (qwaking s).
Definition set_events s x := mkSt (buf s) (closed s) (exit_closed s) (workgroup s) (inboxgroup s) (workers s) (senders s) (stopper s) (drainer s) (pendings s) (panicked s) x (calls s) (late s) (sent s) (succ s) (failed s) (qwaking s).
Definition set_calls s x := mkSt (buf s) (closed s) (exit_closed s) (workgroup s) (inboxgroup s) (workers s) (senders s) (stopper s) (drainer s) (pendings s) (panicked s) (events s) x (late s) (sent s) (succ s) (failed s) (qwaking s).
Definition set_late s x := mkSt (buf s) (closed s) (exit_closed s) (workgroup s) (inboxgroup s) (workers s) (senders s) (stopper s) (drainer s) (pendings s) (panicked s) (events s) (calls s) x (sent s) (succ s) (failed s) (qwaking s).
Definition set_sent s x := mkSt (buf s) (closed s) (exit_closed s) (workgroup s) (inboxgroup s) (workers s) (senders s) (stopper s) (drainer s) (pendings s) (panicked s) (events s) (calls s) (late s) x (succ s) (failed s) (qwaking s).
Definition set_succ s x := mkSt (buf s) (closed s) (exit_closed s) (workgroup s) (inboxgroup s) (workers s) (senders s) (stopper s) (drainer s) (pendings s) (panicked s) (events s) (calls s) (late s) (sent s) x (failed s) (qwaking s).
Definition set_failed s x := mkSt (buf s) (closed s) (exit_closed s) (workgroup s) (inboxgroup s) (workers s) (senders s) (stopper s) (drainer s) (pendings s) (panicked s) (events s) (calls s) (late s) (sent s) (succ s) x (qwaking s).
Definition set_qwaking s x := mkSt (buf s) (closed s) (exit_closed s) (workgroup s) (inboxgroup s) (workers s) (senders s) (stopper s) (drainer s) (pendings s) (panicked s) (events s) (calls s) (late s) (sent s) (succ s) (failed s) x.

(** [sync.WaitGroup]: [Add(delta)] adds [delta] to the counter in one atomic
    step; with [v] the new counter it then
    - panics if [v < 0] ("negative WaitGroup counter");
    - panics if there is a waiter, [delta > 0] and [v == delta] ("WaitGroup
      misuse: Add called concurrently with Wait");
    - returns if [v > 0] or there is no waiter;
    - otherwise (counter 0, one waiter) goes on to its second half.
    Only [Stop] ever waits, so there is at most one waiter. *)
Inductive AddResult := AddPanic | AddReturn | AddWake.

Definition wg_add (v : Z) (waiter : bool) (delta : Z) : AddResult :=
  let v' := v + delta in
  if v' <? 0 then AddPanic
  else if waiter && (0 <? delta) && (v' =? delta) then AddPanic
  else if (0 <? v') || negb waiter then AddReturn
  else AddWake.

(** The state after the first half of an [Add]: a panic ends the program. *)
Definition add_step (r : AddResult) (s : St) : St :=
  match r with AddPanic => set_panicked s true | _ => s end.

(** Whether [Stop] is registered as waiter of [workgroup], of [inboxgroup]. *)
Definition blocked_workers (s : St) : bool :=
  match stopper s with SBlockedWorkers => true | _ => false end.
Definition blocked_inbox (s : St) : bool :=
  match stopper s with SBlockedInbox => true | _ => false end.

(** The second half of [Add]: [if wg.state.Load() != state { panic(...) }];
    [wg.state.Store(0)]; release the waiter.  [state] was counter 0 with one
    waiter; the check fails when the counter or the waiter count changed
    since.  Storing 0 drops the waiter, which is released. *)
Definition workers_wake (s : St) : St :=
  if (workgroup s =? 0) && blocked_workers s then set_stopper s SWokenWorkers
  else set_panicked s true.
Definition inbox_wake (s : St) : St :=
  if (inboxgroup s =? 0) && blocked_inbox s then set_stopper s SWokenInbox
  else set_panicked s true.

(** The first half of [inboxgroup.Done()], i.e. [inboxgroup.Add(-1)], whose
    outcome is [r]. *)
Definition inbox_done (r : AddResult) (s : St) : St :=
  add_step r (set_inboxgroup s (inboxgroup s - 1)).

(** Ghost: the count of [Queue] calls made after [Stop] was called, after
    one more call. *)
Definition count_late (s : St) : nat :=
  match stopper s with SIdle => late s | _ => S (late s) end.

(** The body of [case message := <-actor.inbox] in [work], after the
    receive: which effect the worker performs on other objects. *)
Definition dispatch (a : Actor) (w : Z) (self : loc) (message : V) : list Event :=
  let '(result, err) := process a w self message in
  match err, exception a with
  | Some e, Some h => [EvException h w self e]   (* exception; Done; continue *)
  | _, _ =>
      match outbox a with
      | Some o => [EvRoute o result]            (* outbox.Queue(result); Done *)
      | None => []                              (* Done *)
      end
  end.

(** One atomic step of one goroutine. *)
Inductive Action :=
  | AQueue (ms : list V)   (* a caller runs [actor.Queue(ms...)] *)
  | AQueueWake             (* a caller of [Queue()]: second half of
                              [inboxgroup.Add(0)] *)
  | AStop                  (* a caller starts [actor.Stop()]: [close(actor.exit)] *)
  | ASend (j : nat)        (* [Queue]'s j-th goroutine: [actor.inbox <- message] *)
  | AStart (i : nat)       (* worker i: [actor.workgroup.Add(1)] *)
  | ARecv (i : nat)        (* worker i: [select] takes [message := <-actor.inbox] *)
  | AExit (i : nat)        (* worker i: [select] takes [<-actor.exit]; return,
                              running the deferred [workgroup.Done()]; or the
                              second half of that [Done] *)
  | AFinish (i : nat)      (* worker i: process, dispatch, [inboxgroup.Done()];
                              or the second half of that [Done] *)
  | ADrain                 (* drain goroutine: one turn of [range actor.inbox];
                              or the second half of its [inboxgroup.Done()] *)
  | AStopStep.             (* [Stop]'s caller passes its next statement *)

Definition exec (a : Actor) (self : loc) (s : St) (act : Action) : option St :=
  if panicked s then None else
  match act with
  | AQueue ms =>
      (* actor.inboxgroup.Add(len(messages)); go func() { ... }() *)
      let r := wg_add (inboxgroup s) (blocked_inbox s) (Z.of_nat (length ms)) in
      let s1 := set_inboxgroup s (inboxgroup s + Z.of_nat (length ms)) in
      let s2 := set_senders s1 (senders s ++ [ms]) in
      let s3 := set_calls s2 (calls s ++ [ms]) in
      let s4 := set_late s3 (count_late s) in
      match r with
      | AddPanic => Some (set_panicked s1 true)
      | AddReturn => Some s4
      | AddWake => Some (set_qwaking s4 (S (qwaking s)))
          (* [Add(0)] goes on to its second half ([AQueueWake]); the
             goroutine it then spawns has no message to send, hence no step,
             and is recorded at once *)
      end
  | AQueueWake =>
      match qwaking s with
      | S n => Some (inbox_wake (set_qwaking s n))
      | O => None
      end
  | AStop =>
      (* close(actor.exit) *)
      if exit_closed s then Some (set_panicked s true)
      else Some (set_stopper (set_exit_closed s true) SWaitWorkers)
  | ASend j =>
      match senders s !! j with
      | Some (m :: rest) =>
          if closed s then Some (set_panicked s true)
          else if bool_decide (length (buf s) < inbox_cap a)%nat then
            let s1 := set_buf s (buf s ++ [m]) in
            let s2 := set_senders s1 (<[j := rest]> (senders s)) in
            Some (set_sent s2 (sent s ++ [(j, m)]))
          else None
      | _ => None
      end
  | AStart i =>
      match workers s !! i with
      | Some (w, WNew) =>
          let r := wg_add (workgroup s) (blocked_workers s) 1 in
          let s1 := set_workers (set_workgroup s (workgroup s + 1))
                                (<[i := (w, WIdle)]> (workers s)) in
          match r with
          | AddPanic => Some (set_panicked s1 true)
          | AddReturn => Some s1
          | AddWake => Some (workers_wake s1)
              (* the counter was -1, which a panic prevents *)
          end
      | _ => None
      end
  | ARecv i =>
      match workers s !! i with
      | Some (w, WIdle) =>
          match buf s with
          | m :: rest => Some (set_buf (set_workers s (<[i := (w, WBusy m true)]> (workers s))) rest)
          | [] => if closed s
                  then Some (set_workers s (<[i := (w, WBusy vnil false)]> (workers s)))
                  else None
          end
      | _ => None
      end
  | AExit i =>
      match workers s !! i with
      | Some (w, WIdle) =>
          if exit_closed s then
            let r := wg_add (workgroup s) (blocked_workers s) (-1) in
            let st := match r with AddWake => WExitWake | _ => WExited end in
            Some (add_step r (set_workers (set_workgroup s (workgroup s - 1))
                                          (<[i := (w, st)]> (workers s))))
          else None
      | Some (w, WExitWake) =>
          Some (workers_wake (set_workers s (<[i := (w, WExited)]> (workers s))))
      | _ => None
      end
  | AFinish i =>
      match workers s !! i with
      | Some (w, WBusy m real) =>
          let s1 := set_events s (events s ++ dispatch a w self m) in
          let s2 := if real then
                      match snd (process a w self m) with
                      | None => set_succ s1 (succ s ++ [m])
                      | Some _ => set_failed s1 (failed s ++ [m])
                      end
                    else s1 in
          let r := wg_add (inboxgroup s) (blocked_inbox s) (-1) in
          let st := match r with AddWake => WDoneWake | _ => WIdle end in
          Some (inbox_done r (set_workers s2 (<[i := (w, st)]> (workers s))))
      | Some (w, WDoneWake) =>
          Some (inbox_wake (set_workers s (<[i := (w, WIdle)]> (workers s))))
      | _ => None
      end
  | ADrain =>
      match drainer s with
      | DRunning =>
          match buf s with
          | m :: rest =>
              let r := wg_add (inboxgroup s) (blocked_inbox s) (-1) in
              let s1 := set_pendings (set_buf s rest) (pendings s ++ [m]) in
              Some (inbox_done r (match r with AddWake => set_drainer s1 DWaking | _ => s1 end))
          | [] => if closed s then Some (set_drainer s DExited) else None
          end
      | DWaking => Some (inbox_wake (set_drainer s DRunning))
      | _ => None
      end
  | AStopStep =>
      match stopper s with
      | SWaitWorkers =>
          (* [workgroup.Wait()] returns at once on a zero counter, then
             [go func() { for message := range actor.inbox ... }()] *)
          if workgroup s =? 0
          then Some (set_stopper (set_drainer s DRunning) SWaitInbox)
          else Some (set_stopper s SBlockedWorkers)
      | SWokenWorkers =>
          (* [if wg.state.Load() != 0 { panic("sync: WaitGroup is reused
             before previous Wait has returned") }] *)
          if workgroup s =? 0
          then Some (set_stopper (set_drainer s DRunning) SWaitInbox)
          else Some (set_panicked s true)
      | SWaitInbox =>
          if inboxgroup s =? 0 then Some (set_stopper s SClosing)
          else Some (set_stopper s SBlockedInbox)
      | SWokenInbox =>
          if inboxgroup s =? 0 then Some (set_stopper s SClosing)
          else Some (set_panicked s true)
      | SClosing =>
          if closed s then Some (set_panicked s true)
          else Some (set_stopper (set_closed s true) (SReturned (pendings s)))
      | _ => None
      end
  end.

Fixpoint run (a : Actor) (self : loc) (s : St) (tr : list Action) : option St :=
  match tr with
  | [] => Some s
  | act :: tr' =>
      match exec a self s act with
      | Some s' => run a self s' tr'
      | None => None
      end
  end.

(** A step of the program around the actor: a step of one of its
    goroutines, or an assignment [actor.outbox = target] made by [Direct]
    (director.go) while the goroutines run, which they see at their next
    read of [actor.outbox]. *)
Inductive Step :=
  | Act (act : Action)
  | Rewire (target : option loc).

Fixpoint run_steps (a : Actor) (self : loc) (s : St) (tr : list Step) : option St :=
  match tr with
  | [] => Some s
  | Act act :: tr' =>
      match exec a self s act with
      | Some s' => run_steps a self s' tr'
      | None => None
      end
  | Rewire target :: tr' => run_steps (set_outbox a target) self s tr'
  end.

(** States reachable by some interleaving from the actor built by [New],
    with its [outbox] reassigned at any point. *)
Definition reachable (p : Processor) (e : option Exc) (opt : Options) (self : loc)
    (s : St) : Prop :=
  exists tr, run_steps (snd (fst (New p e opt))) self (snd (New p e opt)) tr = Some s.

End ActorMachine.

(** ** Views of the state used by the invariants *)

Section Views.
Context {V Err Exc : Type}.

(** The message held by a worker that received it from the buffer. *)
Definition busy_msg (x : Z * @WState V) : list V :=
  match snd x with WBusy m true => [m] | _ => [] end.

Definition busy_real (ws : list (Z * @WState V)) : list V := concat (map busy_msg ws).

Definition phantom (x : Z * @WState V) : Prop := exists m, snd x = WBusy m false.

(** Messages that received a terminal disposition: processed with success,
    processed with failure, or drained by [Stop]. *)
Definition disposed (s : @St V Err Exc) : list V := succ s ++ failed s ++ pendings s.

(** Messages accepted by [Queue] and not yet disposed of: in the inbox, in a
    sender goroutine, or held by a worker. *)
Definition outstanding (s : @St V Err Exc) : list V :=
  buf s ++ concat (senders s) ++ busy_real (workers s).

Definition inv (s : @St V Err Exc) : Prop :=
  concat (calls s) ≡ₚ disposed s ++ outstanding s
  /\ (panicked s = false -> closed s = false ->
        inboxgroup s + Z.of_nat (length (disposed s)) = Z.of_nat (length (concat (calls s)))
        /\ Forall (fun x => ~ phantom x) (workers s))
  /\ (closed s = true -> exists ret, stopper s = SReturned ret)
  /\ (stopper s <> SIdle -> exit_closed s = true)
  /\ (late s = 0%nat -> (stopper s = SClosing \/ exists ret, stopper s = SReturned ret) ->
        outstanding s = [])
  /\ (late s = 0%nat -> forall ret, stopper s = SReturned ret -> ret = pendings s).

(** The messages the [Queue] goroutine of call [i] has put into the inbox,
    in the order of insertion. *)
Fixpoint sent_by (i : nat) (l : list (nat * V)) : list V :=
  match l with
  | [] => []
  | (j, m) :: l' => if Nat.eqb i j then m :: sent_by i l' else sent_by i l'
  end.

Definition order_inv (s : @St V Err Exc) : Prop :=
  length (senders s) = length (calls s)
  /\ Forall (fun x => (x.1 < length (calls s))%nat) (sent s)
  /\ (forall i ms rest, calls s !! i = Some ms -> senders s !! i = Some rest ->
        ms = sent_by i (sent s) ++ rest)
  /\ (forall ret, stopper s = SReturned ret -> closed s = true).

End Views.

(** ** Director (director.go) *)

Section DirectorDefs.
Context {V Err Exc : Type}.

(** [source.outbox = target] *)
Definition assign_outbox (h : gmap loc (@Actor V Err Exc)) (src : loc) (target : option loc) : gmap loc (@Actor V Err Exc) :=
  match h !! src with
  | Some x => <[src := set_outbox x target]> h
  | None => h
  end.

(** The [for _, target := range actors] loop of [Direct], with [source]. *)
Fixpoint direct_loop (h : gmap loc (@Actor V Err Exc)) (source : option loc) (actors : list (option loc)) : gmap loc (@Actor V Err Exc) :=
  match actors with
  | [] => h
  | target :: rest =>
      match source with
      | None => direct_loop h target rest                       (* source = target; continue *)
      | Some src => direct_loop (assign_outbox h src target) target rest
      end
  end.

(** [func Direct(actors ...*Actor)]; [None] is a [nil] pointer. *)
Definition Direct (h : gmap loc (@Actor V Err Exc)) (actors : list (option loc)) : gmap loc (@Actor V Err Exc) :=
  direct_loop h None actors.

End DirectorDefs.

(** Sum of the values of a list of messages under a valuation [f]. *)
Definition sumZ {V : Type} (f : V -> Z) (l : list V) : Z := foldr (fun x acc => f x + acc) 0 l.

(** ** Concrete instances *)

(** Messages: [nil] or an integer. *)
Definition Msg := option Z.

Definition opts (w : Z) : Options := mkOptions "" w None None.

(** A processor returning its message and a [nil] error. *)
Definition identity_proc : @Processor Msg string := fun _ _ m => (m, None).

Definition actor1 : @Actor Msg string unit :=
  snd (fst (New identity_proc None (opts 1))).
Definition state1 : @St Msg string unit :=
  snd (New identity_proc None (opts 1)).

(** New; Queue(1); Stop is called before the worker goroutine has run
    [workgroup.Add(1)]: [workgroup.Wait()] returns at once, then the worker
    starts and takes the message. *)
Definition late_worker_trace : list (@Action Msg) :=
  [AQueue [Some 1]; AStop; AStopStep; ASend 0; AStart 0; ARecv 0].

(** ... the worker finishes it, [Stop] returns [[]]; the worker, still
    running, takes [nil] from the closed inbox and calls [inboxgroup.Done()]. *)
Definition late_worker_trace2 : list (@Action Msg) :=
  late_worker_trace ++ [AFinish 0; AStopStep; AStopStep; ARecv 0; AFinish 0].

(** Queue(1, 2); message 1 is processed; Stop drains message 2. *)
Definition stop_trace : list (@Action Msg) :=
  [AQueue [Some 1; Some 2]; AStart 0; ASend 0; ARecv 0; AFinish 0; ASend 0;
   AStop; AExit 0; AStopStep; ADrain; AStopStep; AStopStep].

Definition stopped_state : @St Msg string unit :=
  match run None actor1 0%nat state1 stop_trace with Some s => s | None => state1 end.

(** Queue(1) is called while Stop is between [inboxgroup.Wait()] and
    [close(actor.inbox)]. *)
Definition racing_queue_trace : list (@Action Msg) :=
  [AStart 0; AStop; AExit 0; AStopStep; AStopStep; AQueue [Some 1]; ASend 0;
   AStopStep; ADrain].

(** A processor that always fails. *)
Definition failing_proc : @Processor Msg string := fun _ _ _ => (None, Some "boom"%string).

(** [New(failing_proc, nil, &Options{Worker: 1, Output: <actor at 7>})]. *)
Definition actor_no_handler : @Actor Msg string unit :=
  snd (fst (New failing_proc None (mkOptions "" 1 (Some 7%nat) None))).
Definition state_no_handler : @St Msg string unit :=
  snd (New failing_proc None (mkOptions "" 1 (Some 7%nat) None)).

(** Two actors: the second already has an outbox (address 3). *)
Definition heap2 : gmap loc (@Actor Msg string unit) :=
  <[1%nat := actor1]> (<[2%nat := set_outbox actor1 (Some 3%nat)]> ∅).

(** [New(failing_proc, handler, &Options{Worker: 1})]; Queue(1); the worker
    processes it and calls the handler. *)
Definition handled_trace : list (@Action Msg) :=
  [AQueue [Some 1]; AStart 0; ASend 0; ARecv 0; AFinish 0].

Definition handled_state : @St Msg string unit :=
  match run None (snd (fst (New failing_proc (Some tt) (opts 1)))) 0%nat
          (snd (New failing_proc (Some tt) (opts 1))) handled_trace with
  | Some s => s
  | None => state1
  end.

(** Two workers; [Queue(1, 2, 3)]; its goroutine sends message 1. *)
Definition queued_trace : list (@Action Msg) :=
  [AStart 0; AStart 1; AQueue [Some 1; Some 2; Some 3]; ASend 0].

Definition queued_state : @St Msg string unit :=
  match run None (snd (fst (New identity_proc None (opts 2)))) 0%nat
          (snd (New identity_proc None (opts 2))) queued_trace with
  | Some s => s
  | None => state1
  end.



(** ** Further views of the state of [work] and [Stop] *)

(** A worker goroutine that has run [workgroup.Add(1)] and not yet returned
    (so not yet run its deferred [workgroup.Done()]). *)
Definition live {V : Type} (x : Z * @WState V) : bool :=
  match snd x with WIdle | WBusy _ _ | WDoneWake => true | _ => false end.

Fixpoint live_count {V : Type} (ws : list (Z * @WState V)) : nat :=
  match ws with
  | [] => 0
  | x :: ws' => (if live x then 1 else 0) + live_count ws'
  end.

(** A call of the exception handler made by a worker of an actor with
    handler [ex], address [self] and worker numbers [ws]: a call of [ex] by
    one of these workers with the actor itself. *)
Definition event_ok {V Err Exc : Type} (ex : option Exc) (self : loc) (ws : list Z)
    (ev : @Event V Err Exc) : Prop :=
  match ev with
  | EvException h w self' _ => ex = Some h /\ w ∈ ws /\ self' = self
  | EvRoute _ _ => True
  end.

(** Before [Stop] is called, [exit] is open and no worker has returned. *)
Definition before_stop {V Err Exc : Type} (s : @St V Err Exc) : Prop :=
  stopper s = SIdle -> exit_closed s = false
  /\ Forall (fun x => snd x <> WExited /\ snd x <> WExitWake) (workers s).

(** The workers are [ws], and their handler calls so far are calls of the
    handler [ex] by them. *)
Definition events_inv {V Err Exc : Type} (ex : option Exc) (self : loc) (ws : list Z)
    (s : @St V Err Exc) : Prop :=
  map fst (workers s) = ws /\ Forall (@event_ok V Err Exc ex self ws) (events s).

(** Where a [Direct] loop stands after a list: [source] is the last entry
    seen, or the initial [source] when the list is empty. *)
Definition last_source (source : option loc) (actors : list (option loc)) : option loc :=
  match last actors with Some t => t | None => source end.

(** ** The channel-based actor of the first version of actor.go *)

Section OldActor.
Context {V : Type}.

(** [type Processor func(worker int, actor *Actor, in interface{}) interface{}] *)
Definition OProcessor : Type := Z -> loc -> V -> V.

(** [type Actor struct { name; inbox, outbox chan interface{}; process }];
    [ocap] is the capacity of the [inbox] channel. *)
Record OldActor := mkOldActor {
  oname : string;
  oinbox : loc;
  ooutbox : loc;
  ocap : nat;
  oprocess : OProcessor
}.

(** A goroutine of [Start]: [for message := range actor.inbox]. *)
Inductive OWState :=
  | OWait             (* at the [range] receive *)
  | OBusy (m : V)     (* received [m]: process it, then [out <- result] *)
  | OExited.          (* [range] ended: inbox closed and empty *)

Record OSt := mkOSt {
  obuf : list V;                      (* contents of [actor.inbox] *)
  oclosed : bool;                     (* [actor.inbox] closed *)
  oworkers : list (Z * option loc * OWState);
                                      (* worker number [n], its [out] channel *)
  ocallers : list (list V);           (* callers inside [Queue]: messages
                                         still to send *)
  oout : list (loc * V);              (* sends performed on other channels *)
  oext_closed : list loc;             (* other channels closed by other
                                         goroutines *)
  opanicked : bool;
  oqueued : list V;                   (* ghost: every value put into the inbox *)
  oprocessed : list V                 (* ghost: every message a worker took
                                         and processed *)
}.

Definition oinit : OSt := mkOSt [] false [] [] [] [] false [] [].

(** [func New(process Processor, cap int) *Actor]: [make(chan, cap)] panics
    on a negative capacity.  [inbox] and [outbox] are the addresses of the
    two channels made. *)
Definition ONew (process : OProcessor) (cap : Z) (inbox outbox : loc)
    : option (OldActor * OSt) :=
  if cap <? 0 then None
  else Some (mkOldActor "" inbox outbox (Z.to_nat cap) process, oinit).

(** [for i := 1; i <= n; i++ { go func(n int) {...}(i) }]: the numbers passed
    to the goroutines, in spawn order. *)
Fixpoint for_upto (fuel : nat) (i n : Z) : list Z :=
  match fuel with
  | O => []
  | S fuel' => if i <=? n then i :: for_upto fuel' (i + 1) n else []
  end.

Definition set_obuf s x := mkOSt x (oclosed s) (oworkers s) (ocallers s) (oout s) (oext_closed s) (opanicked s) (oqueued s) (oprocessed s).
Definition set_oclosed s x := mkOSt (obuf s) x (oworkers s) (ocallers s) (oout s) (oext_closed s) (opanicked s) (oqueued s) (oprocessed s).
Definition set_oworkers s x := mkOSt (obuf s) (oclosed s) x (ocallers s) (oout s) (oext_closed s) (opanicked s) (oqueued s) (oprocessed s).
Definition set_ocallers s x := mkOSt (obuf s) (oclosed s) (oworkers s) x (oout s) (oext_closed s) (opanicked s) (oqueued s) (oprocessed s).
Definition set_oout s x := mkOSt (obuf s) (oclosed s) (oworkers s) (ocallers s) x (oext_closed s) (opanicked s) (oqueued s) (oprocessed s).
Definition set_oext_closed s x := mkOSt (obuf s) (oclosed s) (oworkers s) (ocallers s) (oout s) x (opanicked s) (oqueued s) (oprocessed s).
Definition set_opanicked s x := mkOSt (obuf s) (oclosed s) (oworkers s) (ocallers s) (oout s) (oext_closed s) x (oqueued s) (oprocessed s).
Definition set_oqueued s x := mkOSt (obuf s) (oclosed s) (oworkers s) (ocallers s) (oout s) (oext_closed s) (opanicked s) x (oprocessed s).
Definition set_oprocessed s x := mkOSt (obuf s) (oclosed s) (oworkers s) (ocallers s) (oout s) (oext_closed s) (opanicked s) (oqueued s) x.

(** [actor.inbox <- v] as one step: panics on a closed channel, blocks
    ([None]) on a full one. *)
Definition osend_inbox (a : OldActor) (s : OSt) (v : V) : option OSt :=
  if oclosed s then Some (set_opanicked s true)
  else if bool_decide (length (obuf s) < ocap a)%nat
  then Some (set_oqueued (set_obuf s (obuf s ++ [v])) (oqueued s ++ [v]))
  else None.

Inductive OAction :=
  | OAStart (n : Z) (out : option loc) (* a caller runs [actor.Start(n, out)] *)
  | OAQueue (ms : list V)   (* a caller enters [actor.Queue(ms...)] *)
  | OASend (j : nat)        (* the j-th [Queue] caller: [actor.inbox <- message] *)
  | OAStop                  (* a caller runs [actor.Stop()]: [close(actor.inbox)] *)
  | OARecv (i : nat)        (* worker i: one turn of [range actor.inbox] *)
  | OAFinish (i : nat)      (* worker i: [process]; [if out != nil { out <- result }] *)
  | OACloseOut (o : loc)    (* another goroutine closes channel [o] *)
  | OARecvFrom (i j : nat)  (* worker i receives directly from the j-th [Queue]
                               caller blocked in [actor.inbox <- message] *)
  | OAFinishTo (i k : nat). (* worker i's [out <- result] on the actor's own
                               inbox, received directly by worker k *)

Definition oexec (a : OldActor) (self : loc) (s : OSt) (act : OAction) : option OSt :=
  if opanicked s then None else
  match act with
  | OAStart n out =>
      Some (set_oworkers s (oworkers s ++ map (fun i => (i, out, OWait)) (for_upto (Z.to_nat n) 1 n)))
  | OAQueue ms => Some (set_ocallers s (ocallers s ++ [ms]))
  | OASend j =>
      match ocallers s !! j with
      | Some (m :: rest) => osend_inbox a (set_ocallers s (<[j := rest]> (ocallers s))) m
      | _ => None
      end
  | OAStop => if oclosed s then Some (set_opanicked s true) else Some (set_oclosed s true)
  | OARecv i =>
      match oworkers s !! i with
      | Some (w, out, OWait) =>
          match obuf s with
          | m :: rest => Some (set_obuf (set_oworkers s (<[i := (w, out, OBusy m)]> (oworkers s))) rest)
          | [] => if oclosed s
                  then Some (set_oworkers s (<[i := (w, out, OExited)]> (oworkers s)))
                  else None
          end
      | _ => None
      end
  | OAFinish i =>
      match oworkers s !! i with
      | Some (w, out, OBusy m) =>
          let result := oprocess a w self m in
          let s1 := set_oprocessed (set_oworkers s (<[i := (w, out, OWait)]> (oworkers s)))
                                   (oprocessed s ++ [m]) in
          match out with
          | None => Some s1
          | Some o =>
              if Nat.eqb o (oinbox a) then osend_inbox a s1 result
              else if bool_decide (o ∈ oext_closed s) then Some (set_opanicked s1 true)
              else Some (set_oout s1 (oout s ++ [(o, result)]))
          end
      | _ => None
      end
  | OACloseOut o =>
      if Nat.eqb o (oinbox a) then None
      else if bool_decide (o ∈ oext_closed s) then Some (set_opanicked s true)
      else Some (set_oext_closed s (oext_closed s ++ [o]))
  | OARecvFrom i j =>
      (* a receiver takes a sender's value directly only from an empty
         buffer; a send on a closed channel panics in [OASend] *)
      match oworkers s !! i, ocallers s !! j with
      | Some (w, out, OWait), Some (m :: rest) =>
          if oclosed s then None else
          match obuf s with
          | [] => Some (set_oqueued (set_ocallers (set_oworkers s (<[i := (w, out, OBusy m)]> (oworkers s)))
                                                  (<[j := rest]> (ocallers s)))
                                    (oqueued s ++ [m]))
          | _ :: _ => None
          end
      | _, _ => None
      end
  | OAFinishTo i k =>
      if Nat.eqb i k then None else
      match oworkers s !! i, oworkers s !! k with
      | Some (w, Some o, OBusy m), Some (w', out', OWait) =>
          if Nat.eqb o (oinbox a) && negb (oclosed s) then
            match obuf s with
            | [] =>
                let result := oprocess a w self m in
                Some (set_oqueued
                        (set_oprocessed
                           (set_oworkers s (<[k := (w', out', OBusy result)]>
                                              (<[i := (w, Some o, OWait)]> (oworkers s))))
                           (oprocessed s ++ [m]))
                        (oqueued s ++ [result]))
            | _ :: _ => None
            end
          else None
      | _, _ => None
      end
  end.

Fixpoint orun (a : OldActor) (self : loc) (s : OSt) (tr : list OAction) : option OSt :=
  match tr with
  | [] => Some s
  | act :: tr' =>
      match oexec a self s act with
      | Some s' => orun a self s' tr'
      | None => None
      end
  end.

(** States reachable from [New(process, cap)] at address [self]. *)
Definition oreachable (process : OProcessor) (cap : Z) (inbox outbox self : loc)
    (a : OldActor) (s : OSt) : Prop :=
  exists s0 tr, ONew process cap inbox outbox = Some (a, s0) /\ orun a self s0 tr = Some s.

(** Messages held by workers between the receive and the end of the turn. *)
Definition obusy (x : Z * option loc * OWState) : list V :=
  match x.2 with OBusy m => [m] | _ => [] end.

Definition oexited (x : Z * option loc * OWState) : Prop := x.2 = OExited.

(** Every value put into the inbox has been processed, is still buffered or
    is held by a worker; once a worker's [range] has ended, the inbox is
    closed and empty for good; the buffer respects the capacity. *)
Definition oinv (a : OldActor) (s : OSt) : Prop :=
  oqueued s ≡ₚ oprocessed s ++ obuf s ++ concat (map obusy (oworkers s))
  /\ (forall i x, oworkers s !! i = Some x -> oexited x -> oclosed s = true /\ obuf s = [])
  /\ (length (obuf s) <= ocap a)%nat.

(** [source.outbox = target.inbox] of the channel-based [Direct]
    (director.go): [None] is the panic of a [nil] [target]. *)
Definition oassign_outbox (h : gmap loc OldActor) (src : loc) (target : option loc)
    : option (gmap loc OldActor) :=
  match target with
  | None => None
  | Some t =>
      match h !! t, h !! src with
      | Some x, Some y => Some (<[src := mkOldActor (oname y) (oinbox y) (oinbox x) (ocap y) (oprocess y)]> h)
      | _, _ => None
      end
  end.

Fixpoint odirect_loop (h : gmap loc OldActor) (source : option loc) (actors : list (option loc))
    : option (gmap loc OldActor) :=
  match actors with
  | [] => Some h
  | target :: rest =>
      match source with
      | None => odirect_loop h target rest
      | Some src =>
          match oassign_outbox h src target with
          | Some h' => odirect_loop h' target rest
          | None => None
          end
      end
  end.

(** [func Direct(actors ...*Actor)] with [source.outbox = target.inbox]. *)
Definition ODirect (h : gmap loc OldActor) (actors : list (option loc)) : option (gmap loc OldActor) :=
  odirect_loop h None actors.

End OldActor.

(** Concrete channel-based actors: the identity processor. *)
Definition oid_proc : @OProcessor Z := fun _ _ m => m.

(** [New(id, 0)] (unbuffered inbox at address 10); [Start(2, nil)];
    [Queue(5)]; a worker receives 5 directly; [Stop()]; both workers see the
    end of [range]. *)
Definition oactor0 : @OldActor Z := mkOldActor "" 10%nat 11%nat 0%nat oid_proc.

Definition otrace_done : list (@OAction Z) :=
  [OAStart 2 None; OAQueue [5]; OARecvFrom 0%nat 0%nat; OAFinish 0%nat; OAStop; OARecv 0%nat; OARecv 1%nat].

Definition ostate_done : @OSt Z :=
  match orun oactor0 0%nat oinit otrace_done with Some s => s | None => oinit end.

Definition oheap3 : gmap loc (@OldActor Z) :=
  <[1%nat := mkOldActor "a" 10%nat 11%nat 1%nat oid_proc]>
  (<[2%nat := mkOldActor "b" 20%nat 21%nat 1%nat oid_proc]>
  (<[3%nat := mkOldActor "c" 30%nat 31%nat 1%nat oid_proc]> ∅)).

(** Reduction of field reads through field updates. *)
Ltac simpl_st :=
  cbn [inbox_done add_step set_buf set_closed set_exit_closed set_workgroup set_inboxgroup
       set_workers set_senders set_stopper set_drainer set_pendings set_panicked
       set_events set_calls set_late set_sent set_succ set_failed set_qwaking
       buf closed exit_closed workgroup inboxgroup workers senders stopper drainer
       pendings panicked events calls late sent succ failed qwaking] in *.

Ltac destruct_eq x :=
  tryif is_var x then destruct x else (let E := fresh "E" in destruct x eqn:E).

(** The outermost case split of a scrutinee that is itself a case split
    is on the inner scrutinee. *)
Ltac split_scrut x :=
  lazymatch x with
  | context [match ?y with _ => _ end] => split_scrut y
  | _ => destruct_eq x
  end.

(** Case analysis of a step [H : exec ... = Some s']: every branch of the
    source is taken, and [s'] is replaced by the state of that branch. *)
Ltac exec_split H :=
  repeat (
    unfold workers_wake, inbox_wake, inbox_done, add_step in H;
    unfold andb, orb, negb in H;
    match type of H with
    | None = _ => discriminate H
    | context [match ?x with _ => _ end] => split_scrut x
    | Some _ = Some _ => injection H as <-
    end; try cbv beta iota in H);
  repeat match goal with
  | E : blocked_workers ?s = true |- _ =>
      unfold blocked_workers in E; destruct (stopper s) eqn:?; try discriminate E; clear E
  | E : blocked_inbox ?s = true |- _ =>
      unfold blocked_inbox in E; destruct (stopper s) eqn:?; try discriminate E; clear E
  end.

(** Outcomes of the first half of [WaitGroup.Add]. *)
Lemma wg_add_ok v w d : wg_add v w d <> AddPanic -> 0 <= v + d.
Proof. unfold wg_add. destruct (Z.ltb_spec (v + d) 0); [done|lia]. Qed.

Lemma wg_add_wake v w d : wg_add v w d = AddWake -> v + d = 0 /\ w = true.
Proof.
  unfold wg_add. destruct (Z.ltb_spec (v + d) 0); [discriminate|].
  destruct (w && (0 <? d) && (v + d =? d)); [discriminate|].
  destruct (Z.ltb_spec 0 (v + d)), w; simpl; try discriminate.
  intros _. split; [lia|done].
Qed.

Lemma wg_add_return v w d : wg_add v w d = AddReturn -> 0 < v + d \/ w = false.
Proof.
  unfold wg_add. destruct (Z.ltb_spec (v + d) 0); [discriminate|].
  destruct (w && (0 <? d) && (v + d =? d)); [discriminate|].
  destruct (Z.ltb_spec 0 (v + d)), w; simpl; try discriminate; intros _; auto.
Qed.

Lemma wg_add_panic v w d : 0 <= v -> 0 <= d -> wg_add v w d = AddPanic ->
  w = true /\ 0 < d /\ v = 0.
Proof.
  unfold wg_add. intros Hv Hd. destruct (Z.ltb_spec (v + d) 0); [lia|].
  destruct w, (Z.ltb_spec 0 d), (Z.eqb_spec (v + d) d); simpl;
    try (intros _; split_and!; (done || lia));
    destruct (Z.ltb_spec 0 (v + d)); discriminate.
Qed.

Lemma wg_add_pos v w d : 0 <= v -> 0 <= d -> (w = false \/ v <> 0) ->
  (0 < v + d \/ w = false) -> wg_add v w d = AddReturn.
Proof.
  unfold wg_add. intros Hv Hd Hw Hr. destruct (Z.ltb_spec (v + d) 0); [lia|].
  destruct w, (Z.ltb_spec 0 d), (Z.eqb_spec (v + d) d), (Z.ltb_spec 0 (v + d));
    simpl; try done; destruct Hw, Hr; (discriminate || lia).
Qed.

(** Hypotheses [0 <= v + d] for the [Add]s of a branch that did not panic. *)
Ltac wg_facts :=
  repeat match goal with
  | E : wg_add ?v ?w ?d = AddReturn |- _ =>
      pose proof (wg_add_ok v w d ltac:(by rewrite E)); pose proof (wg_add_return v w d E);
      clear E
  | E : wg_add ?v ?w ?d = AddWake |- _ =>
      pose proof (wg_add_wake v w d E); clear E
  end.

Lemma wg_add_misuse d : 0 < d -> wg_add 0 true d = AddPanic.
Proof.
  intros Hd. unfold wg_add. destruct (Z.ltb_spec (0 + d) 0); [done|].
  destruct (Z.ltb_spec 0 d); [|lia]. by rewrite Z.eqb_refl.
Qed.

(** Rewrite the goal with the equations on fields of [s] that the case
    analysis produced. *)
Ltac rw_fields s :=
  repeat match goal with
  | E : ?f s = ?c |- context [?f s] => rewrite E
  end.

(** ** Accounting of messages *)

Section Accounting.
Context {V Err Exc : Type}.
Variable vnil : V.
Variable a : @Actor V Err Exc.
Variable self : loc.
Implicit Types s : @St V Err Exc.
Implicit Types l : list (nat * V).

Lemma concat_insert {B} (l : list (list B)) i x y :
  l !! i = Some y -> x ++ concat l ≡ₚ y ++ concat (<[i:=x]> l).
Proof.
  revert i. induction l as [|z l IH]; intros [|i] H; simpl in *; try discriminate.
  - injection H as ->. solve_Permutation.
  - rewrite app_assoc, (Permutation_app_comm x z), <- app_assoc, (IH i H).
    solve_Permutation.
Qed.

Lemma busy_real_insert (ws : list (Z * @WState V)) i x y :
  ws !! i = Some y -> busy_msg x ++ busy_real ws ≡ₚ busy_msg y ++ busy_real (<[i:=x]> ws).
Proof.
  unfold busy_real. revert i. induction ws as [|z ws IH]; intros [|i] H; simpl in *; try discriminate.
  - injection H as ->. solve_Permutation.
  - rewrite app_assoc, (Permutation_app_comm (busy_msg x) (busy_msg z)), <- app_assoc, (IH i H).
    solve_Permutation.
Qed.

Lemma concat_lookup_nil {B} (l : list (list B)) i y :
  l !! i = Some y -> concat l = [] -> y = [].
Proof.
  revert i. induction l as [|z l IH]; intros [|i] H Hc; simpl in *; try discriminate.
  - injection H as ->. by apply app_eq_nil in Hc as [-> _].
  - apply app_eq_nil in Hc as [_ Hc]. eauto.
Qed.

Lemma busy_real_lookup (ws : list (Z * @WState V)) i y :
  ws !! i = Some y -> busy_real ws = [] -> busy_msg y = [].
Proof.
  unfold busy_real. intros H. apply concat_lookup_nil with i.
  by rewrite list_lookup_fmap, H.
Qed.

Lemma concat_insert_pop {B} (l : list (list B)) i m rest :
  l !! i = Some (m :: rest) -> concat l ≡ₚ m :: concat (<[i:=rest]> l).
Proof.
  intros Hi. pose proof (concat_insert l i rest (m :: rest) Hi) as H. simpl in H.
  apply (Permutation_app_inv_l rest). rewrite H. solve_Permutation.
Qed.

Lemma busy_real_same (ws : list (Z * @WState V)) i x y :
  ws !! i = Some y -> busy_msg x = [] -> busy_msg y = [] ->
  busy_real (<[i:=x]> ws) ≡ₚ busy_real ws.
Proof.
  intros Hi Hx Hy. pose proof (busy_real_insert ws i x y Hi) as H.
  rewrite Hx, Hy in H. by symmetry.
Qed.

Lemma busy_real_take (ws : list (Z * @WState V)) i w m :
  ws !! i = Some (w, WBusy m true) -> busy_real ws ≡ₚ m :: busy_real (<[i:=(w, WIdle)]> ws).
Proof. intros Hi. exact (busy_real_insert ws i (w, WIdle) _ Hi). Qed.

Lemma busy_real_take_wake (ws : list (Z * @WState V)) i w m :
  ws !! i = Some (w, WBusy m true) -> busy_real ws ≡ₚ m :: busy_real (<[i:=(w, WDoneWake)]> ws).
Proof. intros Hi. exact (busy_real_insert ws i (w, WDoneWake) _ Hi). Qed.

Lemma busy_real_put (ws : list (Z * @WState V)) i w m :
  ws !! i = Some (w, WIdle) -> busy_real (<[i:=(w, WBusy m true)]> ws) ≡ₚ m :: busy_real ws.
Proof. intros Hi. symmetry. exact (busy_real_insert ws i (w, WBusy m true) _ Hi). Qed.

Lemma inv_init ws : inv (@init_state V Err Exc ws).
Proof.
  unfold inv, init_state, disposed, outstanding, busy_real; simpl.
  assert (Hb : concat (map busy_msg (map (fun w : Z => (w, @WNew V)) ws)) = [])
    by (induction ws; simpl; auto).
  rewrite Hb. split_and!; try assumption; try done.
  intros _. split; [done|]. apply Forall_forall. intros x Hx.
  apply list_elem_of_In, in_map_iff in Hx as (w & <- & _). by intros [m Hm].
Qed.

Lemma inv_set_panicked s : inv s -> inv (set_panicked s true).
Proof.
  unfold inv, disposed, outstanding. simpl_st.
  intros (H1 & _ & H3 & H4 & H5 & H6). split_and!; done.
Qed.

(** The points of [Stop] between its two waits and its [close]. *)
Definition stop_waiting (pc : @StopPc V) : Prop :=
  match pc with
  | SBlockedWorkers | SWokenWorkers | SWaitInbox | SBlockedInbox | SWokenInbox => True
  | _ => False
  end.

(** A step that moves no message, and moves [Stop] at most between its
    waits, keeps [inv]. *)
Lemma inv_frame s s' :
  inv s ->
  calls s' = calls s -> succ s' = succ s -> failed s' = failed s ->
  pendings s' = pendings s -> buf s' = buf s -> senders s' = senders s ->
  busy_real (workers s') ≡ₚ busy_real (workers s) ->
  closed s' = closed s -> exit_closed s' = exit_closed s -> late s' = late s ->
  (panicked s' = false -> panicked s = false /\ inboxgroup s' = inboxgroup s
     /\ (Forall (fun x => ~ phantom x) (workers s) -> Forall (fun x => ~ phantom x) (workers s'))) ->
  (stopper s' = stopper s
   \/ (exit_closed s = true /\ closed s = false /\ stop_waiting (stopper s'))) ->
  inv s'.
Proof.
  intros (Hperm & Hig & Hcl & Hex & Hout & Hret) Hc Hsu Hf Hpe Hb Hse Hbr Hcl' Hex' Hl Hpan Hst.
  unfold inv, disposed, outstanding in *. rewrite Hc, Hsu, Hf, Hpe, Hb, Hse, Hcl', Hex', Hl.
  split_and!.
  - by rewrite Hbr.
  - intros Hp Hc0. destruct (Hpan Hp) as (Hp0 & -> & Hph).
    destruct (Hig Hp0 Hc0) as [H1 H2]. auto.
  - intros Hc0. destruct Hst as [-> | (_ & Hc1 & _)]; [auto | congruence].
  - intros Hne. destruct Hst as [Hst | (He & _)]; [rewrite Hst in Hne|]; auto.
  - intros Hl0 Hs. destruct Hst as [Hst | (_ & _ & Hw)].
    + rewrite Hst in Hs. specialize (Hout Hl0 Hs).
      apply app_eq_nil in Hout as [-> Hout]. apply app_eq_nil in Hout as [-> Hout].
      rewrite Hout in Hbr. by apply Permutation_nil_r in Hbr as ->.
    + destruct Hs as [Hs | [r Hs]]; rewrite Hs in Hw; done.
  - intros Hl0 r Hs. destruct Hst as [Hst | (_ & _ & Hw)].
    + rewrite Hst in Hs. eauto.
    + rewrite Hs in Hw; done.
Qed.

Lemma inv_exit s : inv s -> stopper s <> SIdle -> exit_closed s = true.
Proof. intros (_ & _ & _ & H & _). exact H. Qed.

Lemma inv_open s : inv s -> (forall ret, stopper s <> SReturned ret) -> closed s = false.
Proof.
  intros (_ & _ & H & _) Hs. destruct (closed s); [|done].
  destruct (H eq_refl) as [r Hr]. by destruct (Hs r).
Qed.

Ltac frame_tac Hinv :=
  eapply inv_frame; [exact Hinv|..]; simpl_st; try reflexivity;
  match goal with
  | |- busy_real _ ≡ₚ _ => eapply busy_real_same; [eassumption|reflexivity|reflexivity]
  | |- _ = false -> _ =>
      first [ intros ?; discriminate
            | intros ?; split_and!; [assumption | reflexivity | ];
              first [ exact (fun H => H)
                    | intros ?; apply Forall_insert; [assumption | by intros [? ?]] ] ]
  | |- _ \/ _ =>
      first [ left; reflexivity
            | right; split_and!;
              [ apply (inv_exit _ Hinv); congruence
              | apply (inv_open _ Hinv); intros ?; congruence
              | exact I ] ]
  end.

Ltac prep := unfold inv, disposed, outstanding in *; simpl_st.


(** The cases of [inv_exec] for [Finish], the drain goroutine and the end of
    [Stop]'s second wait; they use the parts [Hperm], [Hig], [Hcl], [Hex_cl],
    [Hout] of the invariant and [Hlen], the length of [Hperm]. *)
Ltac finish_tac Hperm Hig Hout Hp :=
  match goal with
  | E : workers ?s !! ?i = Some (?z, WBusy ?m true) |- _ =>
      pose proof (busy_real_take _ i z m E) as Hbt;
      pose proof (busy_real_take_wake _ i z m E) as Hbw;
      prep; split_and!; try assumption; try done;
      try (rewrite Hperm; first [rewrite Hbt; solve_Permutation | rewrite Hbw; solve_Permutation]);
      try (intros _ Hc; destruct (Hig Hp Hc) as [H1 H2]; split;
           [ rewrite !length_app in *; simpl; lia
           | apply Forall_insert; [done|]; by intros [m' Hm] ]);
      try (intros Hl Hst; specialize (Hout Hl Hst);
           apply app_eq_nil in Hout as [_ Hout]; apply app_eq_nil in Hout as [_ Hout];
           pose proof (busy_real_lookup _ _ _ E Hout); discriminate)
  | E : workers ?s !! ?i = Some (?z, WBusy ?m false) |- _ =>
      prep;
      let x := match goal with |- context [<[i:=?x]> (workers s)] => x end in
      pose proof (busy_real_same _ i x _ E eq_refl eq_refl) as Hbr;
      split_and!; try assumption; try done;
      try (rewrite Hbr; exact Hperm);
      try (intros _ Hc; destruct (Hig Hp Hc) as [_ H2]; exfalso;
           apply (Forall_lookup_1 _ _ _ _ H2 E); by exists m);
      try (intros Hl Hst; specialize (Hout Hl Hst);
           apply app_eq_nil in Hout as [-> Hout]; apply app_eq_nil in Hout as [-> Hout];
           simpl; apply Permutation_nil_r; rewrite Hbr, Hout; done)
  end.

Ltac drain_tac Hperm Hig Hout Hp :=
  match goal with
  | E0 : buf ?s = _ :: _ |- _ =>
      prep; split_and!; try assumption; try done;
      try (rewrite Hperm, E0; solve_Permutation);
      try (intros _ Hc; destruct (Hig Hp Hc) as [H1 H2]; split;
           [ rewrite !length_app in *; simpl in *; lia | done ]);
      try (intros Hl Hst; specialize (Hout Hl Hst); rewrite E0 in Hout; discriminate);
      try (intros Hl r Hr; specialize (Hout Hl (or_intror (ex_intro _ r Hr)));
           rewrite E0 in Hout; discriminate)
  end.

Ltac closing_tac Hcl Hex_cl Hig Hp :=
  match goal with
  | E0 : (inboxgroup ?s =? 0) = true |- _ =>
      prep; split_and!; try assumption; try done;
      try (intros Hc; destruct (Hcl Hc) as [r Hr]; congruence);
      try (intros _; apply Hex_cl; congruence);
      try (intros _ _; destruct (closed s) eqn:Hc;
           [ destruct (Hcl eq_refl) as [r Hr]; congruence | ];
           destruct (Hig Hp eq_refl) as [H1 _]; apply Z.eqb_eq in E0;
           rewrite !length_app in H1;
           apply app_nil; split; [apply length_zero_iff_nil; lia|];
           apply app_nil; split; apply length_zero_iff_nil; lia)
  end.

Lemma inv_exec s act s' : inv s -> exec vnil a self s act = Some s' -> inv s'.
Proof.
  intros Hinv Hex. unfold exec in Hex. destruct (panicked s) eqn:Hp; [discriminate|].
  destruct act as [ms| | |j|i|i|i|i| |].
  all: exec_split Hex; wg_facts.
  all: try solve [frame_tac Hinv].
  all: pose proof Hinv as (Hperm & Hig & Hcl & Hex_cl & Hout & Hret).
  all: assert (Hlen := Permutation_length Hperm);
    unfold disposed, outstanding in Hlen; rewrite !length_app in Hlen.
  - (* Queue, Add returns *)
    prep. split_and!; try assumption.
    + rewrite !concat_app, Hperm. simpl. rewrite app_nil_r. solve_Permutation.
    + intros _ Hc. destruct (Hig Hp Hc) as [H1 H2]. split; [|done].
      rewrite concat_app, !length_app in *. simpl. rewrite app_nil_r. lia.
    + unfold count_late. destruct (stopper s); intros Hl; try discriminate;
        intros [Hs|[r Hs]]; discriminate.
    + unfold count_late. destruct (stopper s); intros Hl; try discriminate;
        intros r Hs; discriminate.
  - (* Queue, Add(0) on a zero counter with a waiter *)
    prep. split_and!; try assumption.
    + rewrite !concat_app, Hperm. simpl. rewrite app_nil_r. solve_Permutation.
    + intros _ Hc. destruct (Hig Hp Hc) as [H1 H2]. split; [|done].
      rewrite concat_app, !length_app in *. simpl. rewrite app_nil_r. lia.
    + unfold count_late. destruct (stopper s); intros Hl; try discriminate;
        intros [Hs|[r Hs]]; discriminate.
    + unfold count_late. destruct (stopper s); intros Hl; try discriminate;
        intros r Hs; discriminate.
  - (* Stop *)
    prep. split_and!; try assumption; try done.
    + intros Hc. destruct (Hcl Hc) as [r Hr]. rewrite Hr in Hex_cl.
      specialize (Hex_cl ltac:(discriminate)). congruence.
    + intros _ [H|[r H]]; discriminate.
  - (* Send *)
    prep. pose proof (concat_insert_pop _ _ _ _ E) as Hs.
    split_and!; try assumption; try done.
    + rewrite Hperm, Hs. solve_Permutation.
    + intros Hl Hst. specialize (Hout Hl Hst).
      apply app_eq_nil in Hout as [_ Hout]. apply app_eq_nil in Hout as [Hout _].
      pose proof (concat_lookup_nil _ _ _ E Hout). discriminate.
  - (* Recv on a closed, empty inbox *)
    prep. pose proof (busy_real_same _ i (z, WBusy vnil false) _ E eq_refl eq_refl) as Hbr.
    split_and!; try assumption; try done.
    + by rewrite Hbr.
    + intros _ Hc. congruence.
    + intros Hl Hst. specialize (Hout Hl Hst). apply app_eq_nil in Hout as [-> Hout].
      apply app_eq_nil in Hout as [-> Hout]. simpl. apply Permutation_nil_r.
      by rewrite Hbr, Hout.
  - (* Recv of a message *)
    prep. pose proof (busy_real_put _ i z v E) as Hbr.
    split_and!; try assumption; try done.
    + rewrite Hperm, E0, Hbr. solve_Permutation.
    + intros _ Hc. destruct (Hig Hp Hc) as [H1 H2]. split; [done|].
      apply Forall_insert; [done|]. by intros [m' Hm].
    + intros Hl Hst. specialize (Hout Hl Hst). rewrite E0 in Hout. discriminate.
  - finish_tac Hperm Hig Hout Hp.
  - finish_tac Hperm Hig Hout Hp.
  - finish_tac Hperm Hig Hout Hp.
  - finish_tac Hperm Hig Hout Hp.
  - finish_tac Hperm Hig Hout Hp.
  - finish_tac Hperm Hig Hout Hp.
  - finish_tac Hperm Hig Hout Hp.
  - finish_tac Hperm Hig Hout Hp.
  - drain_tac Hperm Hig Hout Hp.
  - drain_tac Hperm Hig Hout Hp.
  - drain_tac Hperm Hig Hout Hp.
  - closing_tac Hcl Hex_cl Hig Hp.
  - closing_tac Hcl Hex_cl Hig Hp.
  - (* Stop returns *)
    prep. split_and!; try assumption; try done.
    + intros _. by exists (pendings s).
    + intros _. apply Hex_cl. congruence.
    + intros Hl _. apply Hout; [done | by left].
    + intros _ r H. by injection H.
Qed.


Lemma inv_run s tr s' : inv s -> run vnil a self s tr = Some s' -> inv s'.
Proof.
  revert s. induction tr as [|act tr IH]; intros s Hs Hrun; simpl in Hrun.
  - by injection Hrun as <-.
  - destruct (exec vnil a self s act) as [s1|] eqn:Hex; [|discriminate].
    eapply IH; [|exact Hrun]. eapply inv_exec; eauto.
Qed.

Lemma sent_by_app i l1 l2 : sent_by i (l1 ++ l2) = sent_by i l1 ++ sent_by i l2.
Proof.
  induction l1 as [|[j m] l1 IH]; simpl; [done|].
  destruct (Nat.eqb i j); simpl; by rewrite IH.
Qed.

Lemma sent_by_fresh i l : Forall (fun x => (x.1 < i)%nat) l -> sent_by i l = [].
Proof.
  induction 1 as [|[j m] l Hj _ IH]; simpl in *; [done|].
  destruct (Nat.eqb_spec i j); [lia|done].
Qed.

Lemma order_inv_init ws : order_inv (@init_state V Err Exc ws).
Proof.
  unfold order_inv, init_state; simpl. split_and!; try done.
  all: intros i ms rest H; by rewrite lookup_nil in H.
Qed.

Lemma order_inv_exec s act s' : order_inv s -> exec vnil a self s act = Some s' -> order_inv s'.
Proof.
  intros Hinv Hex. pose proof Hinv as (Hlen & Hfresh & Hord & Hret).
  unfold exec in Hex. destruct (panicked s) eqn:Hp; [discriminate|].
  destruct act as [ms| | |j|i|i|i|i| |]; exec_split Hex.
  all: unfold order_inv in *; simpl_st.
  all: try (split_and!; first [assumption | done | intros ? ?; discriminate]).
  all: try (split_and!; [..|intros ? ?; rw_fields s; discriminate];
            first [assumption | done]).
  (* Queue *)
  1,2: split_and!;
    [ rewrite !length_app; simpl; lia
    | rewrite length_app; eapply Forall_impl; [exact Hfresh|]; simpl; intros x Hx; lia
    | intros i ms' rest Hc Hs;
      destruct (decide (i < length (calls s))%nat) as [Hi|Hi];
      [ rewrite lookup_app_l in Hc by done; rewrite lookup_app_l in Hs by lia; eauto
      | rewrite lookup_app_r in Hc by lia; rewrite lookup_app_r in Hs by lia;
        rewrite Hlen in Hs; apply list_lookup_singleton_Some in Hc as [Hc <-];
        apply list_lookup_singleton_Some in Hs as [_ <-];
        assert (i = length (calls s)) as -> by lia;
        by rewrite sent_by_fresh ]
    | exact Hret ].
  all: try exact Hinv.
  (* Send *)
  split_and!.
  - by rewrite length_insert.
  - apply Forall_app. split; [done|]. apply Forall_singleton. simpl.
    apply lookup_lt_Some in E. lia.
  - intros i ms' rest' Hc' Hs'. rewrite sent_by_app. simpl.
    destruct (decide (i = j)) as [->|Hne].
    + rewrite Nat.eqb_refl. rewrite list_lookup_insert_eq in Hs'
        by (by apply lookup_lt_Some in E). injection Hs' as <-.
      rewrite (Hord j ms' (v :: l) Hc' E). by rewrite <- app_assoc.
    + apply Nat.eqb_neq in Hne as Hne'. rewrite Hne', app_nil_r.
      rewrite list_lookup_insert_ne in Hs' by congruence. eauto.
  - intros r Hr. by rewrite (Hret r Hr) in E0.
Qed.

Lemma order_inv_run s tr s' : order_inv s -> run vnil a self s tr = Some s' -> order_inv s'.
Proof.
  revert s. induction tr as [|act tr IH]; intros s Hs Hrun; simpl in Hrun.
  - by injection Hrun as <-.
  - destruct (exec vnil a self s act) as [s1|] eqn:Hex; [|discriminate].
    eapply IH; [|exact Hrun]. eapply order_inv_exec; eauto.
Qed.

End Accounting.

(** ** Director: properties of [Direct] *)

Section Director.
Context {V Err Exc : Type}.

Lemma assign_outbox_ne (h : gmap loc (@Actor V Err Exc)) src target k :
  k <> src -> assign_outbox h src target !! k = h !! k.
Proof.
  intros Hne. unfold assign_outbox. destruct (h !! src); [|done].
  by rewrite lookup_insert_ne by congruence.
Qed.

Lemma assign_outbox_eq (h : gmap loc (@Actor V Err Exc)) src target x :
  h !! src = Some x -> assign_outbox h src target !! src = Some (set_outbox x target).
Proof. intros H. unfold assign_outbox. rewrite H. by rewrite lookup_insert_eq. Qed.

Lemma direct_loop_frame (h : gmap loc (@Actor V Err Exc)) src ls k :
  k ∉ src :: ls -> direct_loop h (Some src) (map Some ls) !! k = h !! k.
Proof.
  revert h src. induction ls as [|l ls IH]; intros h src Hk; simpl; [done|].
  rewrite IH by set_solver. apply assign_outbox_ne. set_solver.
Qed.

Lemma direct_loop_last (h : gmap loc (@Actor V Err Exc)) src ls z :
  NoDup (src :: ls) -> last (src :: ls) = Some z ->
  direct_loop h (Some src) (map Some ls) !! z = h !! z.
Proof.
  revert h src. induction ls as [|l ls IH]; intros h src Hnd Hz; simpl in *.
  - done.
  - rewrite IH; [| by apply NoDup_cons in Hnd as [_ ?] | done].
    apply assign_outbox_ne. intros ->. apply NoDup_cons in Hnd as [Hn _].
    apply Hn. apply last_Some_elem_of in Hz. done.
Qed.

Lemma direct_loop_link (h : gmap loc (@Actor V Err Exc)) src ls i a b x :
  NoDup (src :: ls) -> (src :: ls) !! i = Some a -> (src :: ls) !! S i = Some b ->
  h !! a = Some x ->
  direct_loop h (Some src) (map Some ls) !! a = Some (set_outbox x (Some b)).
Proof.
  revert h src i. induction ls as [|l ls IH]; intros h src i Hnd Ha Hb Hx.
  - apply lookup_lt_Some in Hb. simpl in Hb. lia.
  - apply NoDup_cons in Hnd as [Hn Hnd]. simpl.
    destruct i as [|i]; simpl in Ha, Hb.
    + injection Ha as <-. injection Hb as <-.
      rewrite direct_loop_frame by done. by apply assign_outbox_eq.
    + apply (IH _ l i); try done.
      rewrite assign_outbox_ne; [done|]. intros ->. apply Hn.
      by apply list_elem_of_lookup_2 in Ha.
Qed.

Lemma direct_loop_shape (h : gmap loc (@Actor V Err Exc)) src ls k x :
  h !! k = Some x -> exists o, direct_loop h src ls !! k = Some (set_outbox x o).
Proof.
  revert h src x. induction ls as [|t ls IH]; intros h src x Hx; simpl.
  - exists (outbox x). rewrite Hx. by destruct x.
  - destruct src as [src|]; [|by apply IH].
    destruct (decide (k = src)) as [->|Hne].
    + destruct (IH (assign_outbox h src t) t (set_outbox x t)) as [o Ho].
      { by apply assign_outbox_eq. }
      exists o. rewrite Ho. done.
    + apply IH. by rewrite assign_outbox_ne.
Qed.

End Director.

Lemma sumZ_perm {V : Type} (f : V -> Z) (l1 l2 : list V) : l1 ≡ₚ l2 -> sumZ f l1 = sumZ f l2.
Proof. induction 1; simpl; lia. Qed.

Section Claims.
Context {V Err Exc : Type}.
Variable vnil : V.

Lemma run_steps_preserves (P : @St V Err Exc -> Prop) :
  (forall x self s act s', P s -> exec vnil x self s act = Some s' -> P s') ->
  forall x self s tr s', P s -> run_steps vnil x self s tr = Some s' -> P s'.
Proof.
  intros Hstep x self s tr. revert x s.
  induction tr as [|[act|o] tr IH]; intros x s s' Hs Hrun; simpl in Hrun.
  - by injection Hrun as <-.
  - destruct (exec vnil x self s act) as [s1|] eqn:Hex; [|discriminate].
    eapply IH; [|exact Hrun]. eauto.
  - eapply IH; eauto.
Qed.

Lemma run_steps_act (x : @Actor V Err Exc) self s tr s' :
  run vnil x self s tr = Some s' -> run_steps vnil x self s (map Act tr) = Some s'.
Proof.
  revert s. induction tr as [|act tr IH]; intros s0 Hrun; simpl in *; [done|].
  destruct (exec vnil x self s0 act); [|discriminate]. auto.
Qed.

Lemma reachable_inv (p : @Processor V Err) (e : option Exc) (opt : Options) (self : loc)
    (s : @St V Err Exc) :
  reachable vnil p e opt self s -> inv s.
Proof.
  intros [tr Hrun]. eapply (run_steps_preserves inv); [|apply inv_init|exact Hrun].
  intros x self' s0 act s1. apply inv_exec.
Qed.

(** Without a panic, the two [sync.WaitGroup] counters are not negative:
    every change goes through [Add], which panics on a negative result. *)
Definition counters (s : @St V Err Exc) : Prop :=
  panicked s = false -> 0 <= workgroup s /\ 0 <= inboxgroup s.

Lemma counters_exec x self s act s' :
  counters s -> exec vnil x self s act = Some s' -> counters s'.
Proof.
  intros Hc Hex. unfold exec in Hex. destruct (panicked s) eqn:Hp; [discriminate|].
  specialize (Hc Hp). destruct act as [ms| | |j|i|i|i|i| |]; exec_split Hex; wg_facts.
  all: unfold counters; simpl_st; intros Hp'; try discriminate Hp'; rw_fields s; lia.
Qed.

Lemma reachable_counters (p : @Processor V Err) (e : option Exc) (opt : Options) (self : loc)
    (s : @St V Err Exc) :
  reachable vnil p e opt self s -> panicked s = false -> 0 <= workgroup s /\ 0 <= inboxgroup s.
Proof.
  intros [tr Hrun]. change (counters s).
  eapply (run_steps_preserves counters); [| |exact Hrun].
  - intros x self' s0 act s1. apply counters_exec.
  - intros _. simpl. lia.
Qed.

Lemma reachable_order_inv (p : @Processor V Err) (e : option Exc) (opt : Options) (self : loc)
    (s : @St V Err Exc) :
  reachable vnil p e opt self s -> order_inv s.
Proof.
  intros [tr Hrun]. eapply (run_steps_preserves order_inv); [|apply order_inv_init|exact Hrun].
  intros x self' s0 act s1. apply order_inv_exec.
Qed.

(** C5: [Queue(m1, ..., mk)] never blocks: from any state it takes one step
    that adds k to the [inboxgroup] counter and places no message into the
    inbox.  Unless [Stop] is registered in [inboxgroup.Wait()] on a counter
    that has just dropped to 0 (where [Add(k)], k > 0, panics:
    "WaitGroup misuse: Add called concurrently with Wait"), the call returns
    and hands the k messages to a new goroutine, which has sent none of them
    yet.  At every reachable state, the messages that the goroutine of the
    i-th [Queue] call has put into the inbox are a prefix of that call's
    arguments, in argument order. *)
Theorem queue_counts_then_sends (p : @Processor V Err) (e : option Exc) (opt : Options)
    (self : loc) (s : @St V Err Exc) (ms : list V) :
  reachable vnil p e opt self s -> panicked s = false ->
  (exists s', exec vnil (snd (fst (New p e opt))) self s (AQueue ms) = Some s'
     /\ inboxgroup s' = inboxgroup s + Z.of_nat (length ms)
     /\ buf s' = buf s
     /\ sent s' = sent s
     /\ ((ms = [] \/ stopper s <> SBlockedInbox \/ inboxgroup s <> 0) ->
           panicked s' = false
           /\ senders s' = senders s ++ [ms]
           /\ calls s' = calls s ++ [ms]
           /\ sent_by (length (calls s)) (sent s') = [])
     /\ (ms <> [] -> stopper s = SBlockedInbox -> inboxgroup s = 0 ->
           panicked s' = true /\ senders s' = senders s /\ calls s' = calls s))
  /\ (forall i ms', calls s !! i = Some ms' -> sent_by i (sent s) `prefix_of` ms').
Proof.
  intros Hr Hp. pose proof (reachable_order_inv p e opt self s Hr) as (Hlen & Hfresh & Hord & _).
  destruct (reachable_counters p e opt self s Hr Hp) as [_ Hig].
  split.
  - unfold exec. rewrite Hp.
    destruct (wg_add (inboxgroup s) (blocked_inbox s) (Z.of_nat (length ms))) eqn:Hw;
      eexists; (split; [reflexivity|]); simpl_st; split_and!; try done.
    + destruct (wg_add_panic _ _ (Z.of_nat (length ms)) Hig ltac:(lia) Hw) as (Hb & Hk & H0).
      unfold blocked_inbox in Hb.
      intros [->|[Hs|Hs]]; [simpl in Hk; lia| |done].
      by destruct (stopper s).
    + intros _. split_and!; try done. by apply sent_by_fresh.
    + intros Hne Hs H0. exfalso. unfold blocked_inbox in Hw. rewrite Hs, H0 in Hw.
      rewrite wg_add_misuse in Hw; [done|]. destruct ms; [done|]. simpl. lia.
    + intros _. split_and!; try done. by apply sent_by_fresh.
    + intros Hne Hs H0. exfalso. unfold blocked_inbox in Hw. rewrite Hs, H0 in Hw.
      rewrite wg_add_misuse in Hw; [done|]. destruct ms; [done|]. simpl. lia.
  - intros i ms' Hc.
    assert (is_Some (senders s !! i)) as [rest Hs].
    { apply lookup_lt_is_Some. rewrite Hlen. by apply lookup_lt_Some in Hc. }
    rewrite (Hord i ms' rest Hc Hs). by exists rest.
Qed.

(** C7 (amended): once [Stop] has returned, the inbox is closed.  A later
    [Queue(ms...)] still returns to its caller (it cannot fail); when [ms] is
    not empty, the only step left to its goroutine is the send on the closed
    inbox, which panics (a fatal error of the whole program), so none of the
    messages enters the inbox; when [ms] is empty, the goroutine has nothing
    to send and the call has no effect besides adding 0 to the counter. *)
Theorem queue_after_stop (p : @Processor V Err) (e : option Exc) (opt : Options) (self : loc)
    (s : @St V Err Exc) (ret ms : list V) :
  reachable vnil p e opt self s -> panicked s = false -> stopper s = SReturned ret ->
  closed s = true
  /\ exists s', exec vnil (snd (fst (New p e opt))) self s (AQueue ms) = Some s'
       /\ senders s' !! length (senders s) = Some ms
       /\ (ms <> [] -> exec vnil (snd (fst (New p e opt))) self s' (ASend (length (senders s)))
                       = Some (set_panicked s' true))
       /\ (ms = [] -> exec vnil (snd (fst (New p e opt))) self s' (ASend (length (senders s)))
                      = None).
Proof.
  intros Hr Hp Hst. pose proof (reachable_order_inv p e opt self s Hr) as (_ & _ & _ & Hcl).
  destruct (reachable_counters p e opt self s Hr Hp) as [_ Hig].
  specialize (Hcl ret Hst). split; [done|].
  assert (Hw : wg_add (inboxgroup s) (blocked_inbox s) (Z.of_nat (length ms)) = AddReturn).
  { unfold blocked_inbox. rewrite Hst. apply wg_add_pos; auto with lia. }
  eexists. unfold exec at 1. rewrite Hp, Hw. split; [reflexivity|].
  assert (Hj : (senders s ++ [ms]) !! length (senders s) = Some ms)
    by (rewrite lookup_app_r, Nat.sub_diag by lia; done).
  split; [exact Hj|]. split.
  - intros Hne. unfold exec. simpl_st. rewrite Hp, Hj.
    destruct ms as [|m rest]; [done|]. by rewrite Hcl.
  - intros ->. unfold exec. simpl_st. by rewrite Hp, Hj.
Qed.

(** C8 (amended): for distinct actors a1..an, after [Direct(a1, ..., an)]
    the outbox of each ai (i < n) is a(i+1); the last actor an is left as it
    was (its outbox is not cleared); actors not in the list are untouched;
    and every actor differs from its former self in its outbox field only. *)
Theorem direct_wiring (h : gmap loc (@Actor V Err Exc)) (ls : list loc) :
  NoDup ls ->
  (forall i a b x, ls !! i = Some a -> ls !! S i = Some b -> h !! a = Some x ->
     Direct h (map Some ls) !! a = Some (set_outbox x (Some b)))
  /\ (forall z, last ls = Some z -> Direct h (map Some ls) !! z = h !! z)
  /\ (forall k, k ∉ ls -> Direct h (map Some ls) !! k = h !! k)
  /\ (forall k x, h !! k = Some x ->
        exists o, Direct h (map Some ls) !! k = Some (set_outbox x o)).
Proof.
  intros Hnd. destruct ls as [|l ls].
  - split_and!.
    + intros i a0 b x H. by rewrite lookup_nil in H.
    + intros z H. discriminate.
    + intros k _. reflexivity.
    + intros k x Hx. exists (outbox x). unfold Direct. simpl. rewrite Hx. by destruct x.
  - change (Direct h (map Some (l :: ls))) with (direct_loop h (Some l) (map Some ls)).
    split_and!.
    + intros i a0 b x Ha Hb Hx. by eapply direct_loop_link.
    + intros z Hz. by apply direct_loop_last.
    + intros k Hk. by apply direct_loop_frame.
    + intros k x Hx. by apply direct_loop_shape.
Qed.

(** C9: [New] with a non-positive worker count builds exactly what it builds
    with worker count 1: the same options, actor and initial state (one
    worker goroutine, inbox capacity 1), hence the same reachable states. *)
Theorem new_nonpositive_worker (p : @Processor V Err) (e : option Exc) (opt : Options) :
  Worker opt <= 0 ->
  New p e opt = New p e (mkOptions (Name opt) 1 (Output opt) (FailChannel opt))
  /\ inbox_cap (snd (fst (New p e opt))) = 1%nat
  /\ map fst (workers (snd (New p e opt))) = [1]
  /\ (forall self (s : @St V Err Exc),
        reachable vnil p e opt self s <->
        reachable vnil p e (mkOptions (Name opt) 1 (Output opt) (FailChannel opt)) self s).
Proof.
  intros Hw.
  assert (Heq : New p e opt = New p e (mkOptions (Name opt) 1 (Output opt) (FailChannel opt))).
  { unfold New, configure. apply Z.leb_le in Hw. rewrite Hw. reflexivity. }
  split_and!.
  - exact Heq.
  - rewrite Heq. reflexivity.
  - rewrite Heq. reflexivity.
  - intros self s. unfold reachable. by rewrite Heq.
Qed.

(** C10: [New] writes the configured worker count back into the caller's
    options: a non-positive [Worker] reads 1 afterwards, while [Name],
    [Output] and [FailChannel] are unchanged. *)
Theorem new_configures_options (p : @Processor V Err) (e : option Exc) (opt : Options) :
  Worker opt <= 0 ->
  Worker (fst (fst (New p e opt))) = 1
  /\ Name (fst (fst (New p e opt))) = Name opt
  /\ Output (fst (fst (New p e opt))) = Output opt
  /\ FailChannel (fst (fst (New p e opt))) = FailChannel opt.
Proof.
  intros Hw. unfold New, configure. apply Z.leb_le in Hw. rewrite Hw. done.
Qed.

End Claims.

(** ** Witnesses, counterexamples and failing executions *)

Lemma stopped_state_reachable :
  reachable None identity_proc None (opts 1) 0%nat stopped_state.
Proof. exists (map Act stop_trace). vm_compute. reflexivity. Qed.

(** The value of a message: its integer, 0 for [nil]. *)
Definition msg_value (m : Msg) : Z := match m with Some z => z | None => 0 end.

(** C1 fails: with one worker, [Stop] and a concurrent [Queue(1)] (as in
    Test_ActorStop, which runs [go actor.Queue(i)] next to [Stop]) can
    interleave so that [Queue]'s [inboxgroup.Add(1)] runs after
    [inboxgroup.Wait()] has returned and its goroutine sends message 1 before
    [close(actor.inbox)].  [Stop] returns [[]] with message 1 still in the
    inbox, and no panic occurs; the drain goroutine then moves the message to
    its local [pendings] after [Stop] has returned.  The enqueued value 1 is
    not the sum of the processed values and the values returned by [Stop],
    which is 0. *)
Lemma stop_loses_racing_message :
  (exists s, run None actor1 0%nat state1 (removelast racing_queue_trace) = Some s
     /\ panicked s = false /\ stopper s = SReturned [] /\ closed s = true
     /\ buf s = [Some 1])
  /\ (exists s, run None actor1 0%nat state1 racing_queue_trace = Some s
     /\ panicked s = false /\ stopper s = SReturned [] /\ buf s = []
     /\ concat (calls s) = [Some 1] /\ succ s = [] /\ failed s = []
     /\ sumZ msg_value (concat (calls s)) = 1
     /\ sumZ msg_value (succ s ++ failed s ++ []) = 0).
Proof.
  split; eexists; (split; [vm_compute; reflexivity|]); vm_compute; split_and!; reflexivity.
Qed.

(** C2 fails on the same interleaving: message 1 is enqueued, [Stop]
    returns [[]], every worker has returned, the counters are back to 0 and
    nothing panics, yet message 1 is neither processed (with or without
    failure) nor in the list returned by [Stop]: it has no terminal
    disposition. *)
Lemma racing_message_no_disposition :
  exists s, run None actor1 0%nat state1 racing_queue_trace = Some s
  /\ panicked s = false /\ (Some 1 ∈ concat (calls s))
  /\ stopper s = SReturned []
  /\ (Some 1 ∉ succ s ++ failed s ++ [])
  /\ Forall (fun x => snd x = WExited) (workers s)
  /\ workgroup s = 0 /\ inboxgroup s = 0 /\ drainer s = DRunning.
Proof.
  eexists. split; [vm_compute; reflexivity|]. vm_compute.
  split_and!; try reflexivity.
  - left.
  - intros H. inversion H.
  - repeat constructor.
Qed.

(** C3 fails by a slip: [workgroup.Add(1)] runs inside the worker goroutine,
    so [Stop]'s [workgroup.Wait()] can return before a worker has started;
    that worker then takes a message after [Stop] has passed the wait, and
    is still running when [Stop] returns. *)
Lemma stop_passes_live_worker :
  (exists s, run None actor1 0%nat state1 late_worker_trace = Some s
     /\ stopper s = SWaitInbox /\ workers s !! 0%nat = Some (1, WBusy (Some 1) true))
  /\ (exists s, run None actor1 0%nat state1 (late_worker_trace ++ [AFinish 0; AStopStep; AStopStep]) = Some s
     /\ stopper s = SReturned [] /\ succ s = [Some 1] /\ workers s !! 0%nat = Some (1, WIdle)).
Proof. split; eexists; (split; [vm_compute; reflexivity|]); vm_compute; auto. Qed.

(** C4 fails by a slip: with no exception handler and an outbox, a failing
    message is routed: the worker calls [outbox.Queue(result)]. *)
Lemma failure_without_handler_routes :
  dispatch actor_no_handler 1 0%nat (Some 1) = [EvRoute 7%nat None]
  /\ exists s, run None actor_no_handler 0%nat state_no_handler
                 [AQueue [Some 1]; AStart 0; ASend 0; ARecv 0; AFinish 0] = Some s
     /\ events s = [EvRoute 7%nat None] /\ failed s = [Some 1].
Proof. split; [reflexivity|]. eexists. split; [vm_compute; reflexivity|]. vm_compute. auto. Qed.

Lemma queue_counts_then_sends_witness :
  reachable None identity_proc None (opts 2) 0%nat queued_state
  /\ panicked queued_state = false
  /\ (exists s', exec None (snd (fst (New identity_proc None (opts 2)))) 0%nat queued_state
                   (AQueue [Some 4; Some 5]) = Some s'
        /\ inboxgroup s' = inboxgroup queued_state + Z.of_nat (length [Some 4; Some 5])
        /\ buf s' = buf queued_state /\ sent s' = sent queued_state
        /\ (([Some 4; Some 5] = [] \/ stopper queued_state <> SBlockedInbox
             \/ inboxgroup queued_state <> 0) ->
              panicked s' = false /\ senders s' = senders queued_state ++ [[Some 4; Some 5]]
              /\ calls s' = calls queued_state ++ [[Some 4; Some 5]]
              /\ sent_by (length (calls queued_state)) (sent s') = [])
        /\ ([Some 4; Some 5] <> [] -> stopper queued_state = SBlockedInbox ->
            inboxgroup queued_state = 0 ->
              panicked s' = true /\ senders s' = senders queued_state
              /\ calls s' = calls queued_state))
  /\ calls queued_state !! 0%nat = Some [Some 1; Some 2; Some 3]
  /\ sent_by 0 (sent queued_state) = [Some 1]
  /\ sent_by 0 (sent queued_state) `prefix_of` [Some 1; Some 2; Some 3].
Proof.
  assert (Hr : reachable None identity_proc None (opts 2) 0%nat queued_state)
    by (exists (map Act queued_trace); vm_compute; reflexivity).
  assert (Hp : panicked queued_state = false) by (vm_compute; reflexivity).
  destruct (queue_counts_then_sends None identity_proc None (opts 2) 0%nat queued_state
              [Some 4; Some 5] Hr Hp) as [Hq Hpre].
  split; [exact Hr|]. split; [exact Hp|]. split; [exact Hq|].
  assert (Hc : calls queued_state !! 0%nat = Some [Some 1; Some 2; Some 3])
    by (vm_compute; reflexivity).
  split; [exact Hc|]. split; [vm_compute; reflexivity|].
  exact (Hpre 0%nat _ Hc).
Defined.

(** C6 fails by the slip of C3: the worker that started after [Stop]'s
    [workgroup.Wait()] receives [nil] from the closed inbox and calls
    [inboxgroup.Done()] once more: the counter becomes -1 and the program
    panics. *)
Lemma inboxgroup_goes_negative :
  exists s, run None actor1 0%nat state1 late_worker_trace2 = Some s
  /\ inboxgroup s = -1 /\ panicked s = true /\ stopper s = SReturned [].
Proof. eexists. split; [vm_compute; reflexivity|]. vm_compute. auto. Qed.

Lemma queue_after_stop_witness :
  reachable None identity_proc None (opts 1) 0%nat stopped_state
  /\ panicked stopped_state = false /\ stopper stopped_state = SReturned [Some 2]
  /\ closed stopped_state = true.
Proof.
  pose proof stopped_state_reachable as Hr.
  split; [exact Hr|]. split; [reflexivity|]. split; [reflexivity|].
  exact (proj1 (queue_after_stop None identity_proc None (opts 1) 0%nat stopped_state
                  [Some 2] [Some 3] Hr eq_refl eq_refl)).
Defined.

(** C7 as stated fails: [Queue()] with no message on a stopped actor is not
    an error: its goroutine has nothing to send and nothing panics. *)
Lemma queue_after_stop_cex :
  exists s', exec None actor1 0%nat stopped_state (AQueue []) = Some s'
  /\ exec None actor1 0%nat s' (ASend (length (senders stopped_state))) = None
  /\ panicked s' = false.
Proof. eexists. split; [vm_compute; reflexivity|]. vm_compute. auto. Qed.

Lemma direct_wiring_witness :
  NoDup [1%nat; 2%nat]
  /\ Direct heap2 [Some 1%nat; Some 2%nat] !! 1%nat = Some (set_outbox actor1 (Some 2%nat)).
Proof.
  assert (Hnd : NoDup [1%nat; 2%nat]) by (repeat constructor; set_solver).
  split; [exact Hnd|].
  exact (proj1 (direct_wiring heap2 [1%nat; 2%nat] Hnd) 0%nat 1%nat 2%nat actor1
           eq_refl eq_refl eq_refl).
Defined.

(** C8 as stated fails: [Direct] does not clear the outbox of the last
    actor; one created with [Output] keeps it. *)
Lemma direct_wiring_cex :
  exists x, Direct heap2 [Some 1%nat; Some 2%nat] !! 2%nat = Some x /\ outbox x = Some 3%nat.
Proof. eexists. split; [vm_compute; reflexivity|]. reflexivity. Qed.

Lemma new_nonpositive_worker_witness :
  Worker (opts 0) <= 0
  /\ inbox_cap (snd (fst (New identity_proc (@None unit) (opts 0)))) = 1%nat.
Proof.
  assert (Hw : Worker (opts 0) <= 0) by (simpl; lia).
  split; [exact Hw|].
  exact (proj1 (proj2 (new_nonpositive_worker None identity_proc None (opts 0) Hw))).
Defined.

Lemma new_configures_options_witness :
  Worker (opts 0) <= 0 /\ Worker (fst (fst (New identity_proc (@None unit) (opts 0)))) = 1.
Proof.
  assert (Hw : Worker (opts 0) <= 0) by (simpl; lia).
  split; [exact Hw|].
  exact (proj1 (new_configures_options identity_proc None (opts 0) Hw)).
Defined.

Section MoreRuntime.
Context {V Err Exc : Type}.
Variable vnil : V.
Implicit Types s : @St V Err Exc.

(** A property [P] of states kept by every step of an actor satisfying [Q],
    where [Q] survives [Direct]'s assignments to the outbox, holds along
    every run. *)
Lemma run_steps_preserves_actor (Q : @Actor V Err Exc -> Prop) (P : @St V Err Exc -> Prop)
    (self : loc) :
  (forall x o, Q x -> Q (set_outbox x o)) ->
  (forall x s act s', Q x -> P s -> exec vnil x self s act = Some s' -> P s') ->
  forall x s tr s', Q x -> P s -> run_steps vnil x self s tr = Some s' -> P s'.
Proof.
  intros HQ Hstep x s tr. revert x s.
  induction tr as [|[act|o] tr IH]; intros x s s' Hx Hs Hrun; simpl in Hrun.
  - by injection Hrun as <-.
  - destruct (exec vnil x self s act) as [s1|] eqn:Hex; [|discriminate].
    eapply IH; [exact Hx| |exact Hrun]. eauto.
  - eapply IH; [| exact Hs | exact Hrun]. auto.
Qed.

Lemma start_fuel_seq (k : nat) (idx : Z) :
  start_fuel k idx (idx + Z.of_nat k) = map (fun j => idx + Z.of_nat j + 1) (seq 0 k).
Proof.
  revert idx. induction k as [|k IH]; intros idx; [done|].
  simpl. destruct (Z.eqb_spec idx (idx + Z.of_nat (S k))); [lia|].
  f_equal; [lia|].
  replace (idx + Z.of_nat (S k)) with ((idx + 1) + Z.of_nat k) by lia.
  rewrite IH, <- seq_shift, map_map. apply map_ext. intros j. lia.
Qed.

Lemma start_spawns (n : Z) : 0 <= n ->
  start 0 n = map (fun j => Z.of_nat j + 1) (seq 0 (Z.to_nat n)).
Proof.
  intros Hn. unfold start. rewrite Z.sub_0_r.
  rewrite <- (Z2Nat.id n) at 2 by lia. rewrite start_fuel_seq.
  apply map_ext. intros j. lia.
Qed.

Lemma elem_of_start (n w : Z) : 0 <= n -> w ∈ start 0 n -> 1 <= w <= n.
Proof.
  intros Hn Hw. rewrite start_spawns in Hw by done.
  apply list_elem_of_In, in_map_iff in Hw as (j & <- & Hj).
  apply in_seq in Hj. lia.
Qed.

Lemma live_count_insert (ws : list (Z * @WState V)) i x y :
  ws !! i = Some y ->
  (live_count (<[i:=x]> ws) + (if live y then 1 else 0)
   = live_count ws + (if live x then 1 else 0))%nat.
Proof.
  revert i. induction ws as [|z ws IH]; intros [|i] H; simpl in *; try discriminate.
  - injection H as ->. lia.
  - specialize (IH i H). lia.
Qed.

Lemma live_count_pos (ws : list (Z * @WState V)) i y :
  ws !! i = Some y -> live y = true -> (1 <= live_count ws)%nat.
Proof.
  revert i. induction ws as [|z ws IH]; intros [|i] H Hl; simpl in *; try discriminate.
  - injection H as ->. rewrite Hl. lia.
  - specialize (IH i H Hl). lia.
Qed.

Lemma workgroup_exec (a : @Actor V Err Exc) self s act s' :
  (panicked s = false -> workgroup s = Z.of_nat (live_count (workers s))) ->
  exec vnil a self s act = Some s' ->
  panicked s' = false -> workgroup s' = Z.of_nat (live_count (workers s')).
Proof.
  intros Hw Hex. unfold exec in Hex. destruct (panicked s) eqn:Hp; [discriminate|].
  specialize (Hw eq_refl).
  destruct act as [ms| | |j|i|i|i|i| |]; exec_split Hex; wg_facts.
  all: simpl_st; intros Hp'; try discriminate Hp'; try done.
  all: match goal with
       | E : workers ?s0 !! ?i = Some ?y |- context [<[?i:=?x]> _] =>
           pose proof (live_count_insert _ i x y E); simpl in *; lia
       end.
Qed.


Lemma before_stop_exec (a : @Actor V Err Exc) self s act s' :
  before_stop s -> exec vnil a self s act = Some s' -> before_stop s'.
Proof.
  intros Hb Hex. unfold exec in Hex. destruct (panicked s); [discriminate|].
  unfold before_stop in *.
  destruct act as [ms| | |j|i|i|i|i| |]; exec_split Hex.
  all: simpl_st; try done.
  all: intros Hs; try (rewrite Hs in *; discriminate).
  all: destruct (Hb Hs) as [He Hf]; try congruence.
  all: try (split; [done|]; apply Forall_insert; [done|]; simpl; split; discriminate).
  all: exfalso; match goal with
       | E : workers ?s0 !! ?i = Some ?y |- _ =>
           destruct (Forall_lookup_1 _ _ _ _ Hf E); simpl in *; congruence
       end.
Qed.

Lemma map_fst_insert {A B : Type} (l : list (A * B)) i (w : A) (x y : B) :
  l !! i = Some (w, y) -> map fst (<[i:=(w, x)]> l) = map fst l.
Proof.
  revert i. induction l as [|z l IH]; intros [|i] H; simpl in *; try discriminate.
  - by injection H as ->.
  - by rewrite (IH i H).
Qed.

Lemma dispatch_ok (a : @Actor V Err Exc) self ws w m :
  w ∈ ws -> Forall (event_ok (exception a) self ws) (dispatch a w self m).
Proof.
  intros Hw. unfold dispatch. destruct (process a w self m) as [r err].
  destruct err, (exception a) eqn:He, (outbox a) eqn:Ho;
    repeat constructor; simpl; auto.
Qed.

Lemma events_inv_exec (a : @Actor V Err Exc) self ws s act s' :
  events_inv (exception a) self ws s -> exec vnil a self s act = Some s' ->
  events_inv (exception a) self ws s'.
Proof.
  intros [Hw He] Hex. unfold exec in Hex. destruct (panicked s); [discriminate|].
  unfold events_inv.
  destruct act as [ms| | |j|i|i|i|i| |]; exec_split Hex.
  all: simpl_st; try done.
  all: match goal with
       | E : workers ?s0 !! ?i = Some (?w, ?y) |- _ =>
           rewrite (map_fst_insert _ _ _ _ _ E); split; [done|]
       end; try done.
  all: match goal with
       | E : workers ?s0 !! ?i = Some (?w, ?y) |- _ =>
           assert (Hin : w ∈ ws);
           [ rewrite <- Hw; apply list_elem_of_In, in_map_iff; exists (w, y);
             split; [done|]; apply list_elem_of_In; by eapply list_elem_of_lookup_2
           | ]
       end.
  all: apply Forall_app; split; try done; by apply dispatch_ok.
Qed.

End MoreRuntime.

Section MoreDirect.
Context {V Err Exc : Type}.
Implicit Types h : gmap loc (@Actor V Err Exc).

Lemma direct_loop_app h src l1 l2 :
  direct_loop h src (l1 ++ l2) = direct_loop (direct_loop h src l1) (last_source src l1) l2.
Proof.
  revert h src. induction l1 as [|t l1 IH]; intros h src; [done|].
  assert (Hl : last_source src (t :: l1) = last_source t l1).
  { unfold last_source. destruct l1 as [|o l1]; [reflexivity|].
    change (last (t :: o :: l1)) with (last (o :: l1)).
    destruct (last (o :: l1)) eqn:E; [reflexivity|].
    apply last_None in E. discriminate. }
  rewrite Hl. simpl. destruct src; apply IH.
Qed.

End MoreDirect.

(** ** The channel-based runtime: lemmas *)

Ltac osimpl :=
  cbn [set_obuf set_oclosed set_oworkers set_ocallers set_oout set_oext_closed set_opanicked
       set_oqueued set_oprocessed obuf oclosed oworkers ocallers oout oext_closed opanicked
       oqueued oprocessed] in *.

Section OldRuntime.
Context {V : Type}.
Implicit Types s : @OSt V.
Implicit Types a : @OldActor V.

Lemma for_upto_seq (f : nat) (i n : Z) :
  (Z.to_nat (n - i + 1) <= f)%nat ->
  for_upto f i n = map (fun j => i + Z.of_nat j) (seq 0 (Z.to_nat (n - i + 1))).
Proof.
  revert i. induction f as [|f IH]; intros i Hf; simpl.
  - by replace (Z.to_nat (n - i + 1)) with 0%nat by lia.
  - destruct (Z.leb_spec i n).
    + replace (Z.to_nat (n - i + 1)) with (S (Z.to_nat (n - (i + 1) + 1))) by lia.
      rewrite IH by lia. simpl. rewrite <- seq_shift, map_map. f_equal; [lia|].
      apply map_ext. intros j. lia.
    + by replace (Z.to_nat (n - i + 1)) with 0%nat by lia.
Qed.

Lemma obusy_insert (ws : list (Z * option loc * @OWState V)) i x y :
  ws !! i = Some y ->
  concat (map obusy (<[i:=x]> ws)) ++ obusy y ≡ₚ concat (map obusy ws) ++ obusy x.
Proof.
  revert i. induction ws as [|z ws IH]; intros i Hi; [done|].
  destruct i as [|i]; simpl in *.
  - injection Hi as ->. solve_Permutation.
  - rewrite <- !app_assoc, IH by done. done.
Qed.

Lemma obusy_wait w o : @obusy V (w, o, OWait) = [].
Proof. reflexivity. Qed.

Lemma obusy_exited w o : @obusy V (w, o, OExited) = [].
Proof. reflexivity. Qed.

Lemma obusy_busy w o m : @obusy V (w, o, OBusy m) = [m].
Proof. reflexivity. Qed.

Lemma oexited_insert (ws : list (Z * option loc * @OWState V)) j y i x :
  <[j:=y]> ws !! i = Some x -> ~ oexited y -> oexited x -> ws !! i = Some x.
Proof.
  rewrite list_lookup_insert_Some. intros [(-> & <- & _)|(_ & H)] Hy Hx; [done|exact H].
Qed.

Lemma oinv_init a : oinv a oinit.
Proof.
  split_and!; simpl.
  - done.
  - intros i x H. by rewrite lookup_nil in H.
  - lia.
Qed.

Lemma oinv_send a s v s' :
  oinv a s -> osend_inbox a s v = Some s' -> oinv a s'.
Proof.
  intros (Hp & Hx & Hc) Hs. unfold osend_inbox in Hs.
  destruct (oclosed s) eqn:Hcl.
  - injection Hs as <-. split_and!; osimpl; try done.
    intros i x Hi He. rewrite Hcl. eauto.
  - case_bool_decide as Hlt; [|discriminate]. injection Hs as <-. split_and!; osimpl.
    + rewrite Hp. solve_Permutation.
    + intros i x Hi He. destruct (Hx i x Hi He) as [? _]. congruence.
    + rewrite length_app. simpl. lia.
Qed.

Lemma oinv_exec a self s act s' :
  oinv a s -> oexec a self s act = Some s' -> oinv a s'.
Proof.
  intros Hinv Hex. pose proof Hinv as (Hp & Hx & Hc).
  unfold oexec in Hex. destruct (opanicked s); [discriminate|].
  destruct act as [n out|ms|j| |i|i|o|i j|i k].
  - (* Start *)
    injection Hex as <-. split_and!; osimpl; [| |done].
    + rewrite map_app, concat_app, map_map.
      assert (Hn : forall l : list Z, concat (map (fun i => obusy (i, out, @OWait V)) l) = []).
      { intros l. induction l; simpl; done. }
      rewrite Hn, app_nil_r. done.
    + intros i x Hi He. apply lookup_app_Some in Hi as [Hi|[_ Hi]]; [exact (Hx i x Hi He)|].
      apply list_elem_of_lookup_2, list_elem_of_In, in_map_iff in Hi as (w & <- & _).
      discriminate.
  - (* Queue *)
    injection Hex as <-. done.
  - (* a Queue caller's send *)
    destruct (ocallers s !! j) as [[|m rest]|]; try discriminate.
    eapply oinv_send; [|exact Hex]. done.
  - (* Stop *)
    destruct (oclosed s) eqn:Hcl; injection Hex as <-; split_and!; osimpl; try done.
    all: intros i x Hi He; destruct (Hx i x Hi He) as [? ?]; split; congruence.
  - (* a worker's receive *)
    destruct (oworkers s !! i) as [[[w out] [|m|]]|] eqn:Hi; try discriminate.
    destruct (obuf s) as [|m rest] eqn:Hb.
    + destruct (oclosed s) eqn:Hcl; [|discriminate].
      injection Hex as <-. split_and!; osimpl; [| |rewrite Hb; simpl; lia].
      * pose proof (obusy_insert _ i (w, out, OExited) _ Hi) as HB. rewrite ?obusy_wait, ?obusy_exited, ?obusy_busy in HB.
        rewrite !app_nil_r in HB. rewrite Hp, ?Hb, HB. done.
      * intros _ _ _ _. by rewrite Hcl, Hb.
    + injection Hex as <-. split_and!; osimpl.
      * pose proof (obusy_insert _ i (w, out, OBusy m) _ Hi) as HB. rewrite ?obusy_wait, ?obusy_exited, ?obusy_busy in HB.
        rewrite app_nil_r in HB. rewrite Hp, ?Hb, HB. solve_Permutation.
      * intros i' x Hi' He. apply oexited_insert in Hi'; [|by unfold oexited|done].
        destruct (Hx i' x Hi' He) as [_ ?]. congruence.
      * simpl in Hc. lia.
  - (* a worker's turn: process, then [out <- result] *)
    destruct (oworkers s !! i) as [[[w out] [|m|]]|] eqn:Hi; try discriminate.
    set (s1 := set_oprocessed (set_oworkers s (<[i:=(w, out, OWait)]> (oworkers s))) (oprocessed s ++ [m])).
    assert (H1 : oinv a s1).
    { subst s1. split_and!; osimpl; [| |done].
      - pose proof (obusy_insert _ i (w, out, OWait) _ Hi) as HB. rewrite ?obusy_wait, ?obusy_exited, ?obusy_busy in HB.
        rewrite app_nil_r in HB. rewrite Hp, <- HB. solve_Permutation.
      - intros i' x Hi' He. apply oexited_insert in Hi'; [|by unfold oexited|done].
        exact (Hx i' x Hi' He). }
    fold s1 in Hex. destruct out as [o|].
    + destruct (Nat.eqb o (oinbox a)); [by eapply oinv_send|].
      case_bool_decide; injection Hex as <-; exact H1.
    + injection Hex as <-. exact H1.
  - (* another goroutine closes a channel *)
    destruct (Nat.eqb o (oinbox a)); [discriminate|].
    case_bool_decide; injection Hex as <-; exact Hinv.
  - (* direct hand-off from a Queue caller *)
    destruct (oworkers s !! i) as [[[w out] [|m'|]]|] eqn:Hi; try discriminate.
    destruct (ocallers s !! j) as [[|m rest]|]; try discriminate.
    destruct (oclosed s) eqn:Hcl; [discriminate|].
    destruct (obuf s) eqn:Hb; [|discriminate].
    injection Hex as <-. split_and!; osimpl; [| |rewrite Hb; simpl; lia].
    + pose proof (obusy_insert _ i (w, out, OBusy m) _ Hi) as HB. rewrite ?obusy_wait, ?obusy_exited, ?obusy_busy in HB.
      rewrite app_nil_r in HB. rewrite Hp, ?Hb, HB. solve_Permutation.
    + intros i' x Hi' He. apply oexited_insert in Hi'; [|by unfold oexited|done].
      destruct (Hx i' x Hi' He) as [? _]. congruence.
  - (* direct hand-off between two workers *)
    destruct (Nat.eqb_spec i k) as [|Hik]; [discriminate|].
    destruct (oworkers s !! i) as [[[w [o|]] [|m|]]|] eqn:Hi; try discriminate.
    destruct (oworkers s !! k) as [[[w' out'] [|m'|]]|] eqn:Hk; try discriminate.
    destruct (Nat.eqb o (oinbox a) && negb (oclosed s)) eqn:Hc2; [|discriminate].
    apply andb_prop in Hc2 as [_ Hcl]. apply negb_true_iff in Hcl.
    destruct (obuf s) eqn:Hb; [|discriminate].
    injection Hex as <-. split_and!; osimpl; [| |rewrite Hb; simpl; lia].
    + pose proof (obusy_insert _ i (w, Some o, OWait) _ Hi) as HB1. rewrite ?obusy_wait, ?obusy_exited, ?obusy_busy in HB1.
      assert (Hk' : <[i:=(w, Some o, OWait)]> (oworkers s) !! k = Some (w', out', OWait))
        by (rewrite list_lookup_insert_ne; done).
      pose proof (obusy_insert _ k (w', out', OBusy (oprocess a w self m)) _ Hk') as HB2.
      rewrite ?obusy_wait, ?obusy_exited, ?obusy_busy in HB2. rewrite app_nil_r in HB1, HB2.
      rewrite Hp, ?Hb, HB2, <- HB1. solve_Permutation.
    + intros i' x Hi' He. apply oexited_insert in Hi'; [|by unfold oexited|done].
      apply oexited_insert in Hi'; [|by unfold oexited|done].
      destruct (Hx i' x Hi' He) as [? _]. congruence.
Qed.

Lemma oreachable_inv process cap inbox outbox self a s :
  oreachable process cap inbox outbox self a s -> oinv a s.
Proof.
  intros (s0 & tr & Hnew & Hrun). unfold ONew in Hnew.
  destruct (cap <? 0); [discriminate|]. injection Hnew as <- <-.
  assert (H0 : oinv (mkOldActor "" inbox outbox (Z.to_nat cap) process) oinit) by apply oinv_init.
  revert Hrun H0. generalize (@oinit V). induction tr as [|act tr IH]; intros s0 Hrun H0; simpl in Hrun.
  - by injection Hrun as <-.
  - destruct (oexec _ self s0 act) as [s1|] eqn:He; [|discriminate].
    eapply IH; [exact Hrun|]. eapply oinv_exec; eauto.
Qed.

Lemma oassign_outbox_ne (h : gmap loc (@OldActor V)) src t h' k :
  oassign_outbox h src t = Some h' -> k <> src -> h' !! k = h !! k.
Proof.
  unfold oassign_outbox. destruct t as [t|]; [|discriminate].
  destruct (h !! t), (h !! src); try discriminate.
  intros [= <-] Hne. by rewrite lookup_insert_ne by congruence.
Qed.

Lemma odirect_loop_wiring (h : gmap loc (@OldActor V)) src ls :
  NoDup (src :: ls) -> (forall k, k ∈ src :: ls -> is_Some (h !! k)) ->
  exists h', odirect_loop h (Some src) (map Some ls) = Some h'
  /\ (forall i ka kb x y, (src :: ls) !! i = Some ka -> (src :: ls) !! S i = Some kb ->
        h !! ka = Some x -> h !! kb = Some y ->
        h' !! ka = Some (mkOldActor (oname x) (oinbox x) (oinbox y) (ocap x) (oprocess x)))
  /\ (forall z, last (src :: ls) = Some z -> h' !! z = h !! z)
  /\ (forall k, k ∉ src :: ls -> h' !! k = h !! k).
Proof.
  revert h src. induction ls as [|l ls IH]; intros h src Hnd Hal.
  - exists h. split_and!; try done.
    all: intros i ka kb x y _ Hb; apply lookup_lt_Some in Hb; simpl in Hb; lia.
  - apply NoDup_cons in Hnd as [Hn Hnd].
    destruct (Hal src) as [y Hy]; [by left|]. destruct (Hal l) as [x Hx]; [by right; left|].
    set (h1 := <[src := mkOldActor (oname y) (oinbox y) (oinbox x) (ocap y) (oprocess y)]> h).
    assert (Ha1 : oassign_outbox h src (Some l) = Some h1) by (unfold oassign_outbox; by rewrite Hx, Hy).
    assert (Hne : forall k, k ∈ l :: ls -> h1 !! k = h !! k).
    { intros k Hk. subst h1. rewrite lookup_insert_ne; [done|]. intros ->. done. }
    destruct (IH h1 l Hnd) as (h' & Hrun & Hlink & Hlast & Hframe).
    { intros k Hk. destruct (decide (k = src)) as [->|Hks].
      - subst h1. rewrite lookup_insert_eq. done.
      - subst h1. rewrite lookup_insert_ne by congruence. apply Hal. by right. }
    exists h'. split_and!.
    + change (match oassign_outbox h src (Some l) with
              | Some h2 => odirect_loop h2 (Some l) (map Some ls) | None => None end = Some h').
      rewrite Ha1. exact Hrun.
    + intros i ka kb x' y' Ha Hb Hxa Hyb. destruct i as [|i]; simpl in Ha, Hb.
      * injection Ha as <-. injection Hb as <-. rewrite Hxa in Hy. injection Hy as ->.
        rewrite Hyb in Hx. injection Hx as ->.
        rewrite Hframe by done. subst h1. by rewrite lookup_insert_eq.
      * apply (Hlink i ka kb); try done.
        -- rewrite Hne; [done|]. by apply list_elem_of_lookup_2 in Ha.
        -- rewrite Hne; [done|]. apply list_elem_of_lookup_2 in Hb. by right.
    + intros z Hz. assert (Hz' : last (l :: ls) = Some z) by exact Hz.
      rewrite Hlast by done. apply Hne. by apply last_Some_elem_of in Hz'.
    + intros k Hk. rewrite Hframe by set_solver. subst h1.
      rewrite lookup_insert_ne; [done|]. set_solver.
Qed.

Lemma odirect_loop_none (h : gmap loc (@OldActor V)) src l :
  (forall k, src = Some k \/ Some k ∈ l -> is_Some (h !! k)) ->
  (odirect_loop h src l = None <->
   exists l1 l2, l = l1 ++ None :: l2 /\ (is_Some src \/ exists k, Some k ∈ l1)).
Proof.
  revert h src. induction l as [|t l IH]; intros h src Hal; simpl.
  - split; [discriminate|]. intros (l1 & l2 & Hl & _). by destruct l1.
  - destruct src as [src|].
    + destruct t as [t|].
      * destruct (Hal src) as [y Hy]; [by left|]. destruct (Hal t) as [x Hx]; [by right; left|].
        unfold oassign_outbox. rewrite Hx, Hy.
        rewrite IH.
        2:{ intros k [[= <-]|Hk].
            - destruct (decide (t = src)) as [->|]; [by rewrite lookup_insert_eq|].
              rewrite lookup_insert_ne by congruence. done.
            - destruct (decide (k = src)) as [->|]; [by rewrite lookup_insert_eq|].
              rewrite lookup_insert_ne by congruence. apply Hal. by right; right. }
        split.
        -- intros (l1 & l2 & -> & _). exists (Some t :: l1), l2. split; [done|]. left. by eexists.
        -- intros ([|t' l1] & l2 & Hl & _); simpl in Hl; [discriminate|].
           injection Hl as <- ->. exists l1, l2. split; [done|]. left. by eexists.
      * split; [|done]. intros _. exists [], l. split; [done|]. left. by eexists.
    + rewrite IH.
      2:{ intros k [->|Hk]; apply Hal; right; [by left|by right]. }
      split.
      * intros (l1 & l2 & -> & [[k ->]|[k Hk]]).
        -- exists (Some k :: l1), l2. split; [done|]. right. exists k. by left.
        -- exists (t :: l1), l2. split; [done|]. right. exists k. by right.
      * intros ([|t' l1] & l2 & Hl & [[? ?]|[k Hk]]); simpl in Hl; try discriminate.
        -- by apply elem_of_nil in Hk.
        -- injection Hl as <- ->. apply elem_of_cons in Hk as [<-|Hk].
           ++ exists l1, l2. split; [done|]. left. by eexists.
           ++ exists l1, l2. split; [done|]. right. by exists k.
Qed.

End OldRuntime.

(** ** Further properties: statements *)

Section MoreClaims.
Context {V Err Exc : Type}.
Variable vnil : V.



(** When nothing has panicked, the [workgroup] counter equals the number of
    workers that have run [workgroup.Add(1)] and not yet returned (a worker
    that has run its deferred [workgroup.Done()] no longer counts); in
    particular it is not negative. *)
Theorem workgroup_tracks_live_workers (p : @Processor V Err) (e : option Exc) (opt : Options)
    (self : loc) (s : @St V Err Exc) :
  reachable vnil p e opt self s -> panicked s = false ->
  workgroup s = Z.of_nat (live_count (workers s)).
Proof.
  intros [tr Hrun]. revert Hrun.
  apply (run_steps_preserves_actor vnil (fun _ => True)
           (fun s => panicked s = false -> workgroup s = Z.of_nat (live_count (workers s))) self).
  - done.
  - intros x s0 act s1 _ Hw Hex. exact (workgroup_exec vnil x self s0 act s1 Hw Hex).
  - done.
  - intros _. unfold New. simpl. generalize (start 0 (Worker (configure opt))).
    intros l. induction l; simpl; lia.
Qed.

(** Calling [Stop] a second time panics: its [close(actor.exit)] closes a
    closed channel. *)
Theorem second_stop_panics (p : @Processor V Err) (e : option Exc) (opt : Options)
    (self : loc) (s : @St V Err Exc) :
  reachable vnil p e opt self s -> panicked s = false -> stopper s <> SIdle ->
  exec vnil (snd (fst (New p e opt))) self s AStop = Some (set_panicked s true).
Proof.
  intros Hr Hp Hst. pose proof (reachable_inv vnil p e opt self s Hr) as (_ & _ & _ & Hex & _).
  unfold exec. rewrite Hp, (Hex Hst). reflexivity.
Qed.

(** Until [Stop] is called, [exit] stays open, no worker goroutine has
    returned and none can return: the workers of an actor that is never
    stopped live forever. *)
Theorem workers_run_until_stop (p : @Processor V Err) (e : option Exc) (opt : Options)
    (self : loc) (s : @St V Err Exc) :
  reachable vnil p e opt self s -> stopper s = SIdle ->
  exit_closed s = false /\ Forall (fun x => snd x <> WExited) (workers s)
  /\ forall i, exec vnil (snd (fst (New p e opt))) self s (AExit i) = None.
Proof.
  intros [tr Hrun] Hst.
  assert (Hb : before_stop s).
  { revert Hrun. apply (run_steps_preserves_actor vnil (fun _ => True) before_stop self).
    - done.
    - intros x s0 act s1 _. apply before_stop_exec.
    - done.
    - intros _. unfold New. simpl. split; [done|].
      apply Forall_forall. intros x Hx. apply list_elem_of_In, in_map_iff in Hx as (w & <- & _).
      split; discriminate. }
  destruct (Hb Hst) as [He Hf]. split_and!; [done| |].
  - eapply Forall_impl; [exact Hf|]. intros x [? ?]. done.
  - intros i. unfold exec. destruct (panicked s); [done|].
    destruct (workers s !! i) as [[w [| | m r | | |]]|] eqn:Hi; try done.
    + by rewrite He.
    + destruct (Forall_lookup_1 _ _ _ _ Hf Hi) as [_ Hx]. by destruct Hx.
Qed.

(** A worker's calls of the exception handler stay within its actor, also
    when [Direct] rewires the actor's outbox: the handler called is the one
    given to [New], with the actor itself and a worker number between 1 and
    the configured worker count. *)
Theorem worker_effects_confined (p : @Processor V Err) (e : option Exc) (opt : Options)
    (self : loc) (s : @St V Err Exc) :
  reachable vnil p e opt self s ->
  forall h w self' err, EvException h w self' err ∈ events s ->
     e = Some h /\ self' = self /\ 1 <= w <= Worker (configure opt).
Proof.
  intros [tr Hrun].
  set (ws := start 0 (Worker (configure opt))).
  assert (Hi : events_inv e self ws s).
  { revert Hrun.
    apply (run_steps_preserves_actor vnil (fun x => exception x = e) (events_inv e self ws) self).
    - intros x o Hx. by destruct x.
    - intros x s0 act s1 Hx Hs Hex. rewrite <- Hx.
      eapply events_inv_exec; [|exact Hex]. by rewrite Hx.
    - done.
    - split; [|constructor]. unfold New. simpl. rewrite map_map. apply map_id. }
  destruct Hi as [_ Hev]. rewrite Forall_forall in Hev.
  assert (Hpos : 0 <= Worker (configure opt)).
  { unfold configure. destruct (Z.leb_spec (Worker opt) 0); simpl; lia. }
  intros h w self' err Hin. destruct (Hev _ Hin) as (He & Hw & Hs).
  apply elem_of_start in Hw; [|exact Hpos].
  split_and!; [exact He | done | lia | lia].
Qed.

(** [Direct] can be cut at any entry: [Direct(xs..., y, ys...)] does what
    [Direct(xs..., y)] followed by [Direct(y, ys...)] does.  In particular a
    [nil] entry splits the pipeline into two independent ones. *)
Theorem direct_split (h : gmap loc (@Actor V Err Exc)) (l1 l2 : list (option loc))
    (y : option loc) :
  Direct h (l1 ++ y :: l2) = Direct (Direct h (l1 ++ [y])) (y :: l2).
Proof.
  unfold Direct. rewrite cons_middle, app_assoc, direct_loop_app.
  unfold last_source. rewrite last_snoc. reflexivity.
Qed.


End MoreClaims.

Section OldClaims.
Context {V : Type}.

(** [Start(n, out)] spawns exactly [n] worker goroutines, numbered 1..n,
    each waiting at [range actor.inbox] with channel [out]; with [n <= 0] it
    spawns none.  Nothing else changes. *)
Theorem old_start_spawns (a : @OldActor V) (self : loc) (s : @OSt V) (n : Z) (out : option loc) :
  opanicked s = false ->
  oexec a self s (OAStart n out)
  = Some (set_oworkers s (oworkers s ++ map (fun j => (Z.of_nat j + 1, out, OWait)) (seq 0 (Z.to_nat n)))).
Proof.
  intros Hp. unfold oexec. rewrite Hp.
  rewrite for_upto_seq by lia. replace (n - 1 + 1) with n by lia.
  rewrite map_map.
  replace (map (fun j => (1 + Z.of_nat j, out, @OWait V)) (seq 0 (Z.to_nat n)))
    with (map (fun j => (Z.of_nat j + 1, out, @OWait V)) (seq 0 (Z.to_nat n))); [reflexivity|].
  apply map_ext. intros j. by rewrite Z.add_comm.
Qed.

(** [New(process, cap)] panics on a negative [cap]; otherwise the inbox
    channel never holds more than [cap] messages (none at all for an
    unbuffered one). *)
Theorem old_inbox_bounded (process : @OProcessor V) (cap : Z) (inbox outbox self : loc)
    (a : @OldActor V) (s : @OSt V) :
  oreachable process cap inbox outbox self a s ->
  0 <= cap /\ ocap a = Z.to_nat cap /\ (length (obuf s) <= Z.to_nat cap)%nat.
Proof.
  intros Hr. pose proof (oreachable_inv _ _ _ _ _ _ _ Hr) as (_ & _ & Hc).
  destruct Hr as (s0 & tr & Hnew & _). unfold ONew in Hnew.
  destruct (Z.ltb_spec cap 0); [discriminate|]. injection Hnew as <- _. simpl in Hc.
  split_and!; [lia|done|exact Hc].
Qed.

(** No message is lost or duplicated by the channel-based actor: every value
    ever put into the inbox (by [Queue] or by a worker whose [out] is the
    inbox itself) has been processed, is still in the inbox, or is held by
    a worker. *)
Theorem old_conservation (process : @OProcessor V) (cap : Z) (inbox outbox self : loc)
    (a : @OldActor V) (s : @OSt V) :
  oreachable process cap inbox outbox self a s ->
  oqueued s ≡ₚ oprocessed s ++ obuf s ++ concat (map obusy (oworkers s)).
Proof. intros Hr. exact (proj1 (oreachable_inv _ _ _ _ _ _ _ Hr)). Qed.

(** A worker's [range actor.inbox] ends only after [Stop] has closed the
    inbox and the inbox has been drained. *)
Theorem old_worker_exits_after_drain (process : @OProcessor V) (cap : Z) (inbox outbox self : loc)
    (a : @OldActor V) (s : @OSt V) (i : nat) (x : Z * option loc * @OWState V) :
  oreachable process cap inbox outbox self a s ->
  oworkers s !! i = Some x -> x.2 = OExited ->
  oclosed s = true /\ obuf s = [].
Proof.
  intros Hr Hi He. exact (proj1 (proj2 (oreachable_inv _ _ _ _ _ _ _ Hr)) i x Hi He).
Qed.

(** Once every worker of the channel-based actor has left its [range] loop,
    every value put into the inbox has been processed, exactly once: [Stop]
    followed by the workers' exit loses nothing. *)
Theorem old_all_exited_processed (process : @OProcessor V) (cap : Z) (inbox outbox self : loc)
    (a : @OldActor V) (s : @OSt V) :
  oreachable process cap inbox outbox self a s ->
  oworkers s <> [] -> Forall (fun x => x.2 = OExited) (oworkers s) ->
  oclosed s = true /\ obuf s = [] /\ oprocessed s ≡ₚ oqueued s.
Proof.
  intros Hr Hne Hall. pose proof (oreachable_inv _ _ _ _ _ _ _ Hr) as (Hp & Hx & _).
  destruct (oworkers s) as [|x ws] eqn:Hws; [done|].
  assert (Hx0 : (x :: ws) !! 0%nat = Some x) by done.
  apply Forall_cons in Hall as Hall'. destruct Hall' as [Hx0e _].
  destruct (Hx 0%nat x Hx0 Hx0e) as [Hcl Hb].
  assert (Hbusy : concat (map obusy (x :: ws)) = []).
  { clear Hx0 Hws Hne Hx Hp. induction Hall as [|y l Hy _ IH]; [done|].
    simpl. unfold obusy at 1. rewrite Hy. exact IH. }
  split_and!; [done|done|]. rewrite Hp, Hb, Hbusy. by rewrite !app_nil_r.
Qed.

(** The channel-based [Direct] over distinct actors [a1..an] sets each
    [ai.outbox] to the inbox channel of [a(i+1)], leaves [an] and every
    actor not in the list as it was, and does not panic. *)
Theorem old_direct_wiring (h : gmap loc (@OldActor V)) (ls : list loc) :
  NoDup ls -> Forall (fun k => is_Some (h !! k)) ls ->
  exists h', ODirect h (map Some ls) = Some h'
  /\ (forall i ka kb x y, ls !! i = Some ka -> ls !! S i = Some kb ->
        h !! ka = Some x -> h !! kb = Some y ->
        h' !! ka = Some (mkOldActor (oname x) (oinbox x) (oinbox y) (ocap x) (oprocess x)))
  /\ (forall z, last ls = Some z -> h' !! z = h !! z)
  /\ (forall k, k ∉ ls -> h' !! k = h !! k).
Proof.
  intros Hnd Hal. rewrite Forall_forall in Hal. destruct ls as [|l ls].
  - exists h. split_and!; try done.
    all: intros i ka kb x y Ha; by rewrite lookup_nil in Ha.
  - exact (odirect_loop_wiring h l ls Hnd Hal).
Qed.

(** The channel-based [Direct] panics exactly when a [nil] actor follows a
    non-[nil] one: reading [target.inbox] of a [nil] target.  Leading [nil]
    entries are skipped. *)
Theorem old_direct_panics (h : gmap loc (@OldActor V)) (l : list (option loc)) :
  (forall k, Some k ∈ l -> is_Some (h !! k)) ->
  (ODirect h l = None <-> exists l1 l2 k, l = l1 ++ None :: l2 /\ Some k ∈ l1).
Proof.
  intros Hal. unfold ODirect. rewrite odirect_loop_none.
  - split.
    + intros (l1 & l2 & -> & [[? ?]|[k Hk]]); [discriminate|]. by exists l1, l2, k.
    + intros (l1 & l2 & k & -> & Hk). exists l1, l2. split; [done|]. right. by exists k.
  - intros k [?|Hk]; [discriminate|]. by apply Hal.
Qed.

End OldClaims.

(** ** Further properties: instances *)

Lemma handled_state_reachable :
  reachable None failing_proc (Some tt) (opts 1) 0%nat handled_state.
Proof. exists (map Act handled_trace). vm_compute. reflexivity. Qed.

Lemma ostate_done_reachable :
  oreachable oid_proc 0 10%nat 11%nat 0%nat oactor0 ostate_done.
Proof. exists oinit, otrace_done. split; vm_compute; reflexivity. Qed.



Lemma workgroup_tracks_live_workers_witness :
  reachable None failing_proc (Some tt) (opts 1) 0%nat handled_state
  /\ panicked handled_state = false
  /\ workgroup handled_state = Z.of_nat (live_count (workers handled_state))
  /\ workgroup handled_state = 1.
Proof.
  assert (Hp : panicked handled_state = false) by (vm_compute; reflexivity).
  split; [exact handled_state_reachable|]. split; [exact Hp|].
  split; [|vm_compute; reflexivity].
  exact (workgroup_tracks_live_workers None failing_proc (Some tt) (opts 1) 0%nat
           handled_state handled_state_reachable Hp).
Defined.

Lemma second_stop_panics_witness :
  reachable None identity_proc None (opts 1) 0%nat stopped_state
  /\ panicked stopped_state = false /\ stopper stopped_state <> SIdle
  /\ exec None (snd (fst (New identity_proc None (opts 1)))) 0%nat stopped_state AStop
     = Some (set_panicked stopped_state true).
Proof.
  assert (Hp : panicked stopped_state = false) by (vm_compute; reflexivity).
  assert (Hs : stopper stopped_state <> SIdle) by (vm_compute; discriminate).
  split; [exact stopped_state_reachable|]. split; [exact Hp|]. split; [exact Hs|].
  exact (second_stop_panics None identity_proc None (opts 1) 0%nat stopped_state
           stopped_state_reachable Hp Hs).
Defined.

Lemma workers_run_until_stop_witness :
  reachable None failing_proc (Some tt) (opts 1) 0%nat handled_state
  /\ stopper handled_state = SIdle
  /\ exec None (snd (fst (New failing_proc (Some tt) (opts 1)))) 0%nat handled_state (AExit 0) = None.
Proof.
  assert (Hs : stopper handled_state = SIdle) by (vm_compute; reflexivity).
  split; [exact handled_state_reachable|]. split; [exact Hs|].
  destruct (workers_run_until_stop None failing_proc (Some tt) (opts 1) 0%nat handled_state
              handled_state_reachable Hs) as (_ & _ & Hx).
  apply Hx.
Defined.

Lemma worker_effects_confined_witness :
  reachable None failing_proc (Some tt) (opts 1) 0%nat handled_state
  /\ events handled_state = [EvException tt 1 0%nat "boom"%string]
  /\ (Some tt = Some tt /\ (0%nat = 0%nat) /\ 1 <= 1 <= Worker (configure (opts 1))).
Proof.
  assert (He : events handled_state = [EvException tt 1 0%nat "boom"%string])
    by (vm_compute; reflexivity).
  split; [exact handled_state_reachable|]. split; [exact He|].
  apply (worker_effects_confined None failing_proc (Some tt) (opts 1) 0%nat
           handled_state handled_state_reachable tt 1 0%nat "boom"%string).
  vm_compute. left.
Defined.

Lemma old_start_spawns_witness :
  opanicked (@oinit Z) = false
  /\ oexec oactor0 0%nat oinit (OAStart 2 None)
     = Some (set_oworkers oinit [(1, None, OWait); (2, None, OWait)]).
Proof.
  assert (Hp : opanicked (@oinit Z) = false) by reflexivity.
  split; [exact Hp|].
  rewrite (old_start_spawns oactor0 0%nat oinit 2 None Hp). reflexivity.
Defined.

Lemma old_inbox_bounded_witness :
  oreachable oid_proc 0 10%nat 11%nat 0%nat oactor0 ostate_done
  /\ (length (obuf ostate_done) <= 0)%nat.
Proof.
  split; [exact ostate_done_reachable|].
  exact (proj2 (proj2 (old_inbox_bounded oid_proc 0 10%nat 11%nat 0%nat oactor0 ostate_done
                         ostate_done_reachable))).
Defined.

Lemma old_conservation_witness :
  oreachable oid_proc 0 10%nat 11%nat 0%nat oactor0 ostate_done
  /\ oqueued ostate_done = [5]
  /\ oqueued ostate_done ≡ₚ oprocessed ostate_done ++ obuf ostate_done
                            ++ concat (map obusy (oworkers ostate_done)).
Proof.
  split; [exact ostate_done_reachable|]. split; [vm_compute; reflexivity|].
  exact (old_conservation oid_proc 0 10%nat 11%nat 0%nat oactor0 ostate_done
           ostate_done_reachable).
Defined.

Lemma old_worker_exits_after_drain_witness :
  oreachable oid_proc 0 10%nat 11%nat 0%nat oactor0 ostate_done
  /\ oworkers ostate_done !! 0%nat = Some (1, None, OExited)
  /\ oclosed ostate_done = true /\ obuf ostate_done = [].
Proof.
  assert (Hi : oworkers ostate_done !! 0%nat = Some (1, None, OExited)) by (vm_compute; reflexivity).
  split; [exact ostate_done_reachable|]. split; [exact Hi|].
  exact (old_worker_exits_after_drain oid_proc 0 10%nat 11%nat 0%nat oactor0 ostate_done
           0%nat _ ostate_done_reachable Hi eq_refl).
Defined.

Lemma old_all_exited_processed_witness :
  oreachable oid_proc 0 10%nat 11%nat 0%nat oactor0 ostate_done
  /\ oworkers ostate_done <> [] /\ Forall (fun x => x.2 = OExited) (oworkers ostate_done)
  /\ oprocessed ostate_done ≡ₚ oqueued ostate_done.
Proof.
  assert (Hne : oworkers ostate_done <> []) by (vm_compute; discriminate).
  assert (Hall : Forall (fun x : Z * option loc * @OWState Z => x.2 = OExited) (oworkers ostate_done))
    by (vm_compute; repeat constructor).
  split; [exact ostate_done_reachable|]. split; [exact Hne|]. split; [exact Hall|].
  exact (proj2 (proj2 (old_all_exited_processed oid_proc 0 10%nat 11%nat 0%nat oactor0
                         ostate_done ostate_done_reachable Hne Hall))).
Defined.

Lemma old_direct_wiring_witness :
  NoDup [1%nat; 2%nat; 3%nat] /\ Forall (fun k => is_Some (oheap3 !! k)) [1%nat; 2%nat; 3%nat]
  /\ exists h', ODirect oheap3 [Some 1%nat; Some 2%nat; Some 3%nat] = Some h'
     /\ h' !! 1%nat = Some (mkOldActor "a" 10%nat 20%nat 1%nat oid_proc).
Proof.
  assert (Hnd : NoDup [1%nat; 2%nat; 3%nat]) by (repeat constructor; set_solver).
  assert (Hal : Forall (fun k => is_Some (oheap3 !! k)) [1%nat; 2%nat; 3%nat])
    by (repeat constructor; eexists; reflexivity).
  split; [exact Hnd|]. split; [exact Hal|].
  destruct (old_direct_wiring oheap3 [1%nat; 2%nat; 3%nat] Hnd Hal) as (h' & Hd & Hl & _).
  exists h'. split; [exact Hd|].
  exact (Hl 0%nat 1%nat 2%nat _ _ eq_refl eq_refl eq_refl eq_refl).
Defined.

Lemma old_direct_panics_witness :
  (forall k, Some k ∈ [None; Some 1%nat; None] -> is_Some (oheap3 !! k))
  /\ ODirect oheap3 [None; Some 1%nat; None] = None.
Proof.
  assert (Hal : forall k, Some k ∈ [None; Some 1%nat; None] -> is_Some (oheap3 !! k)).
  { intros k Hk. apply list_elem_of_In in Hk. simpl in Hk.
    destruct Hk as [Hk|[Hk|[Hk|[]]]]; try discriminate.
    injection Hk as <-. eexists. reflexivity. }
  split; [exact Hal|].
  apply (proj2 (old_direct_panics oheap3 _ Hal)).
  exists [None; Some 1%nat], [], 1%nat. split; [reflexivity|]. right. by left.
Defined.

